(** * Project Memory MCP: the patch-block validator, parser and applier

    A shallow embedding of [src/project_mem_mcp/server.py]:
    [validate_block_integrity], [parse_search_replace_blocks] and
    [update_project_memory], together with the Python built-ins they call
    ([str.count], [str.replace], [str.find], [str.split], [str.strip],
    [str.splitlines], [in], [re.findall]).

    Python strings are sequences of Unicode code points; a string is modelled
    as a list of code points ([N]), so that the line boundaries and white
    space of [splitlines] and [strip] are the ones Python uses. *)

From Stdlib Require Import String Ascii.
From Stdlib Require Import List Bool Arith NArith ZArith Lia.
Import ListNotations.

(** ** Python strings *)

Module PyStr.

Definition char := N.
Definition str := list char.

(** A string literal of the source, code point by code point. *)
Definition lit (s : string) : str :=
  map N_of_ascii (list_ascii_of_string s).

Definition LF : char := 10%N.
Definition CR : char := 13%N.

Fixpoint eqb (a b : str) : bool :=
  match a, b with
  | [], [] => true
  | x :: a', y :: b' => N.eqb x y && eqb a' b'
  | _, _ => false
  end.

(** [s.startswith(p)] *)
Fixpoint prefix (p s : str) : bool :=
  match p with
  | [] => true
  | x :: p' =>
      match s with
      | [] => false
      | y :: s' => N.eqb x y && prefix p' s'
      end
  end.

(** Index of the first occurrence of [sub] in [s], if any. *)
Fixpoint index_of (sub s : str) : option nat :=
  if prefix sub s then Some 0
  else match s with
       | [] => None
       | _ :: t => option_map S (index_of sub t)
       end.

(** [s.find(sub)]: the lowest index, or [-1]. *)
Definition find (s sub : str) : Z :=
  match index_of sub s with
  | Some i => Z.of_nat i
  | None => (-1)%Z
  end.

(** [sub in s] *)
Definition contains (sub s : str) : bool :=
  match index_of sub s with
  | Some _ => true
  | None => false
  end.

(** [s.count(sub)]: the number of non-overlapping occurrences, found by a
    scan from the left that resumes after the end of each occurrence.  [skip]
    is the number of characters still covered by the last occurrence.  An
    empty [sub] occurs before every character and at the end. *)
Fixpoint count_from (skip : nat) (sub s : str) : nat :=
  match s with
  | [] => match skip with
          | O => if prefix sub [] then 1 else 0
          | S _ => 0
          end
  | _ :: t =>
      match skip with
      | S k => count_from k sub t
      | O => if prefix sub s
             then S (count_from (length sub - 1) sub t)
             else count_from 0 sub t
      end
  end.

Definition count (s sub : str) : nat := count_from 0 sub s.

(** [s.replace(old, new)]: every occurrence that [count] counts is replaced. *)
Fixpoint replace_from (skip : nat) (old new s : str) : str :=
  match s with
  | [] => match skip with
          | O => if prefix old [] then new else []
          | S _ => []
          end
  | c :: t =>
      match skip with
      | S k => replace_from k old new t
      | O => if prefix old s
             then new ++ (match old with [] => [c] | _ :: _ => [] end)
                      ++ replace_from (length old - 1) old new t
             else c :: replace_from 0 old new t
      end
  end.

Definition replace (s old new : str) : str := replace_from 0 old new s.

(** [s.split(sep)] for a non-empty [sep]: the segments between the
    occurrences that [count] counts.  [cur] is the segment being read, in
    reverse. *)
Fixpoint split_from (skip : nat) (sep cur s : str) : list str :=
  match s with
  | [] => [rev cur]
  | c :: t =>
      match skip with
      | S k => split_from k sep cur t
      | O => if prefix sep s
             then rev cur :: split_from (length sep - 1) sep [] t
             else split_from 0 sep (c :: cur) t
      end
  end.

Definition split (s sep : str) : list str := split_from 0 sep [] s.

(** [sep.join(parts)] *)
Fixpoint join (sep : str) (parts : list str) : str :=
  match parts with
  | [] => []
  | [p] => p
  | p :: rest => p ++ sep ++ join sep rest
  end.

(** [c.isspace()]: the code points Python treats as white space. *)
Definition isspace (c : char) : bool :=
  ((9 <=? c) && (c <=? 13) || (28 <=? c) && (c <=? 32)
   || (c =? 133) || (c =? 160) || (c =? 5760)
   || (8192 <=? c) && (c <=? 8202)
   || (c =? 8232) || (c =? 8233) || (c =? 8239) || (c =? 8287)
   || (c =? 12288))%N.

Fixpoint lstrip (s : str) : str :=
  match s with
  | [] => []
  | c :: t => if isspace c then lstrip t else s
  end.

(** [s.strip()] *)
Definition strip (s : str) : str := rev (lstrip (rev (lstrip s))).

(** The line boundaries of [str.splitlines]. *)
Definition is_linebreak (c : char) : bool :=
  ((10 <=? c) && (c <=? 13) || (28 <=? c) && (c <=? 30)
   || (c =? 133) || (c =? 8232) || (c =? 8233))%N.

(** [s.splitlines()]: the lines without their line ends; a carriage return
    followed by a line feed is one line end, and a line end at the very end
    of the text opens no further line. *)
Fixpoint splitlines (s : str) : list str :=
  match s with
  | [] => []
  | c :: t =>
      if is_linebreak c then
        [] :: (if N.eqb c CR
               then match t with
                    | c' :: t' => if N.eqb c' LF then splitlines t' else splitlines t
                    | [] => []
                    end
               else splitlines t)
      else match splitlines t with
           | [] => [[c]]
           | l :: ls => (c :: l) :: ls
           end
  end.

(** [xs[a:b]] for [0 <= a]. *)
Definition slice {A : Type} (xs : list A) (a b : nat) : list A :=
  firstn (b - a) (skipn a xs).

End PyStr.

Import PyStr.


(** ** Regular expressions: the fragment [re.findall] is called with

    The pattern of the source is a sequence of literals and of capturing
    groups [(.*?)]; under [re.DOTALL] the dot matches every character, the
    line feed included.  A lazy group takes the fewest characters for which
    the rest of the pattern matches (backtracking). *)

Module Regex.

Inductive item :=
| Lit (s : str)
| LazyAny.

(** The lazy group followed by the continuation [k]: [acc] holds the
    characters taken so far, in reverse. *)
Fixpoint lazy_any (k : str -> option (list str * str)) (acc text : str)
  : option (list str * str) :=
  match k text with
  | Some (groups, rest) => Some (rev acc :: groups, rest)
  | None =>
      match text with
      | [] => None
      | c :: t => lazy_any k (c :: acc) t
      end
  end.

(** A match anchored at the start of [text]: the captured groups and the
    text after the match. *)
Fixpoint match_here (p : list item) (text : str) : option (list str * str) :=
  match p with
  | [] => Some ([], text)
  | Lit l :: p' =>
      if prefix l text then match_here p' (skipn (length l) text) else None
  | LazyAny :: p' => lazy_any (match_here p') [] text
  end.

(** [re.findall] for a pattern with two groups whose matches are never
    empty: the matches are searched from the left and do not overlap; [skip]
    is the number of characters still covered by the last match. *)
Fixpoint findall_from (skip : nat) (p : list item) (text : str) : list (str * str) :=
  match text with
  | [] => []
  | _ :: t =>
      match skip with
      | S k => findall_from k p t
      | O =>
          match match_here p text with
          | Some ([g1; g2], rest) =>
              (g1, g2) :: findall_from (length text - length rest - 1) p t
          | _ => findall_from 0 p t
          end
      end
  end.

Definition findall (p : list item) (text : str) : list (str * str) :=
  findall_from 0 p text.

End Regex.

(** ** The server: errors *)

(** The exceptions raised by the validator, the parser and the applier, each
    with the values its message is formatted from. *)
Inductive error :=
| UnbalancedMarkers (search_count separator_count replace_count : nat)
| IncorrectSequence (position : nat) (got : list str)
| NestedMarker (block : nat)
| MissingSeparator
| MissingReplaceMarker
| SearchContainsMarkers (block : nat)
| ReplaceContainsMarkers (block : nat)
| InvalidPatchFormat
| AmbiguousMatch (block : nat) (count : nat)
| SearchNotFound (block : nat).

Inductive result (A : Type) :=
| Ok (a : A)
| Raise (e : error).

Arguments Ok {A} a.
Arguments Raise {A} e.

Definition bind {A B : Type} (r : result A) (f : A -> result B) : result B :=
  match r with
  | Ok a => f a
  | Raise e => Raise e
  end.

Notation "r ;; k" := (bind r (fun _ => k)) (at level 61, right associativity).
Notation "x <- r ;; k" := (bind r (fun x => k))
  (at level 61, r at next level, right associativity).

Definition block := (str * str)%type.

(** ** The server: [validate_block_integrity] *)

Definition search_marker : str := lit "<<<<<<< SEARCH".
Definition separator : str := lit "=======".
Definition replace_marker : str := lit ">>>>>>> REPLACE".

(** [line in ["<<<<<<< SEARCH", "=======", ">>>>>>> REPLACE"]] *)
Definition is_marker_line (line : str) : bool :=
  existsb (PyStr.eqb line) [search_marker; separator; replace_marker].

(** The list [markers]: the trimmed lines that are markers, in order. *)
Definition marker_lines (patch_content : str) : list str :=
  filter is_marker_line (map strip (splitlines patch_content)).

(** The loop over [range(0, len(markers), 3)]: only complete groups of three
    are inspected. *)
Fixpoint check_sequence (i : nat) (markers : list str) : result unit :=
  match markers with
  | m0 :: m1 :: m2 :: rest =>
      if negb (PyStr.eqb m0 search_marker) || negb (PyStr.eqb m1 separator)
         || negb (PyStr.eqb m2 replace_marker)
      then Raise (IncorrectSequence i [m0; m1; m2])
      else check_sequence (i + 3) rest
  | _ => Ok tt
  end.

(** The loop over [enumerate(sections[1:], 1)]. *)
Fixpoint check_nested (i : nat) (sections : list str) : result unit :=
  match sections with
  | [] => Ok tt
  | section :: rest =>
      if contains search_marker section
         && (find section search_marker <? find section replace_marker)%Z
      then Raise (NestedMarker i)
      else check_nested (S i) rest
  end.

Definition validate_block_integrity (patch_content : str) : result unit :=
  let search_count := count patch_content search_marker in
  let separator_count := count patch_content separator in
  let replace_count := count patch_content replace_marker in
  if negb ((search_count =? separator_count) && (separator_count =? replace_count))
  then Raise (UnbalancedMarkers search_count separator_count replace_count)
  else
    check_sequence 0 (marker_lines patch_content) ;;
    check_nested 1 (tl (split patch_content search_marker)).

(** ** The server: [parse_search_replace_blocks] *)

(** [any(marker in text for marker in [search_marker, separator, replace_marker])] *)
Definition has_marker (text : str) : bool :=
  existsb (fun marker => contains marker text)
          [search_marker; separator; replace_marker].

(** The pattern [f"{search_marker}\\n(.*?)\\n{separator}\\n(.*?)\\n{replace_marker}"]. *)
Definition pattern : list Regex.item :=
  [Regex.Lit (search_marker ++ [LF]); Regex.LazyAny;
   Regex.Lit (LF :: separator ++ [LF]); Regex.LazyAny;
   Regex.Lit (LF :: replace_marker)].

(** The loop over [enumerate(matches)] that guards the matched content. *)
Fixpoint check_matches (i : nat) (matches : list block) : result unit :=
  match matches with
  | [] => Ok tt
  | (search_text, replace_text) :: rest =>
      if has_marker search_text then Raise (SearchContainsMarkers (i + 1))
      else if has_marker replace_text then Raise (ReplaceContainsMarkers (i + 1))
      else check_matches (S i) rest
  end.

(** [range(a, b)] *)
Definition range (a b : nat) : list nat := seq a (b - a).

(** [for j in range(...): if lines[j] == target: idx = j; break], with [idx]
    initialised to [-1]. *)
Fixpoint first_line_eq (lines : list str) (target : str) (js : list nat) : Z :=
  match js with
  | [] => (-1)%Z
  | j :: js' =>
      if PyStr.eqb (nth j lines []) target then Z.of_nat j
      else first_line_eq lines target js'
  end.

(** The [while i < len(lines)] loop of the alternative parsing; every
    iteration takes one unit of [fuel], and [None] is a run that used it up. *)
Fixpoint fallback_loop (fuel : nat) (lines : list str) (i : nat) (blocks : list block)
  : option (result (list block)) :=
  match fuel with
  | O => None
  | S fuel' =>
      if i <? length lines then
        if PyStr.eqb (nth i lines []) search_marker then
          let search_start := i + 1 in
          let separator_idx :=
            first_line_eq lines separator (range search_start (length lines)) in
          if (separator_idx =? -1)%Z then Some (Raise MissingSeparator)
          else
            let replace_end :=
              first_line_eq lines replace_marker
                (range (Z.to_nat (separator_idx + 1)) (length lines)) in
            if (replace_end =? -1)%Z then Some (Raise MissingReplaceMarker)
            else
              let search_text :=
                join [LF] (slice lines search_start (Z.to_nat separator_idx)) in
              let replace_text :=
                join [LF] (slice lines (Z.to_nat (separator_idx + 1))
                                 (Z.to_nat replace_end)) in
              if has_marker search_text
              then Some (Raise (SearchContainsMarkers (length blocks + 1)))
              else if has_marker replace_text
              then Some (Raise (ReplaceContainsMarkers (length blocks + 1)))
              else fallback_loop fuel' lines (Z.to_nat (replace_end + 1))
                                 (blocks ++ [(search_text, replace_text)])
        else fallback_loop fuel' lines (i + 1) blocks
      else Some (Ok blocks)
  end.

(** The alternative parsing: [i] grows at every iteration, so one more unit
    of fuel than there are lines is enough ([fallback_loop_terminates]
    below); the default is never reached. *)
Definition fallback_parse (patch_content : str) : result (list block) :=
  let lines := splitlines patch_content in
  match fallback_loop (S (length lines)) lines 0 [] with
  | Some (Ok []) => Raise InvalidPatchFormat
  | Some r => r
  | None => Raise InvalidPatchFormat
  end.

Definition parse_search_replace_blocks (patch_content : str) : result (list block) :=
  validate_block_integrity patch_content ;;
  let matches := Regex.findall pattern patch_content in
  match matches with
  | [] => fallback_parse patch_content
  | _ :: _ => check_matches 0 matches ;; Ok matches
  end.

(** ** The server: [update_project_memory] *)

(** The loop over [enumerate(blocks)]: [i] is the 0-based index of the head
    of [blocks], [current_content] and [applied_blocks] the loop's
    variables. *)
Fixpoint apply_loop (i : nat) (blocks : list block) (current_content : str)
         (applied_blocks : nat) : result (str * nat) :=
  match blocks with
  | [] => Ok (current_content, applied_blocks)
  | (search_text, replace_text) :: rest =>
      let count := count current_content search_text in
      if count =? 1 then
        apply_loop (S i) rest (replace current_content search_text replace_text)
                   (applied_blocks + 1)
      else if 1 <? count then Raise (AmbiguousMatch (i + 1) count)
      else Raise (SearchNotFound (i + 1))
  end.

Definition apply_blocks (original_content : str) (blocks : list block)
  : result (str * nat) :=
  apply_loop 0 blocks original_content 0.

(** *** Files read and written as text *)

(** [open(..., 'r')] reads with universal newlines: a carriage return, a
    line feed, and a carriage return followed by a line feed are each read
    as a line feed. *)
Fixpoint universal_newlines (stored : str) : str :=
  match stored with
  | [] => []
  | c :: t =>
      if N.eqb c CR then
        LF :: match t with
              | c' :: t' => if N.eqb c' LF then universal_newlines t'
                            else universal_newlines t
              | [] => []
              end
      else c :: universal_newlines t
  end.

(** [open(..., 'w')] writes every line feed as [os.linesep]. *)
Definition write_newlines (linesep content : str) : str :=
  flat_map (fun c => if N.eqb c LF then linesep else [c]) content.

(** The encoding of the text: UTF-8 where the source asks for it, the
    encoding of the locale where it does not. *)
Inductive encoding :=
| Utf8
| LocaleEncoding.

(** A code point that UTF-8 does not encode. *)
Definition is_surrogate (c : char) : bool :=
  ((55296 <=? c) && (c <=? 57343))%N.

(** What the tool sees of the file system at the resolved project path:
    whether the path is a directory; the text its memory file holds, if the
    file exists; the record of the texts handed to [f.write] once the file
    was open for writing, the last one first; the line separator of the
    platform; and what the operating system and the codecs do, which the
    code does not decide: whether reading a file that holds a text fails
    (the file cannot be opened or decoded), whether opening the file for
    writing fails, and whether writing a text fails once the file is open
    and, if so, the text that is left in the file. *)
Record filesystem := {
  project_is_dir : bool;
  memory_file : option str;
  writes : list str;
  linesep : str;
  read_fails : encoding -> str -> bool;
  open_fails : bool;
  write_fails : encoding -> str -> option str
}.

Definition with_memory (fs : filesystem) (stored : str) (written : str) : filesystem :=
  {| project_is_dir := project_is_dir fs;
     memory_file := Some stored;
     writes := written :: writes fs;
     linesep := linesep fs;
     read_fails := read_fails fs;
     open_fails := open_fails fs;
     write_fails := write_fails fs |}.

(** The exceptions of a write: of [open], of the encoder, and of the
    operating system while the text is written or the file closed. *)
Inductive write_error :=
| OpenError
| EncodeError
| WriteError.

(** [with open(memory_file, 'w', ...) as f: f.write(content)].  Opening
    creates the file or empties it; the text is then encoded, which for
    UTF-8 fails on a surrogate, and written. *)
Definition write_text (enc : encoding) (fs : filesystem) (content : str)
  : filesystem * option write_error :=
  if open_fails fs then (fs, Some OpenError)
  else if match enc with
          | Utf8 => existsb is_surrogate content
          | LocaleEncoding => false
          end
  then (with_memory fs [] content, Some EncodeError)
  else match write_fails fs enc content with
       | Some remains => (with_memory fs remains content, Some WriteError)
       | None => (with_memory fs (write_newlines (linesep fs) content) content, None)
       end.

Inductive outcome :=
| Applied (applied_blocks : nat)   (* "Successfully applied n patch blocks ..." *)
| NoBlocks                         (* the function falls off its end *)
| ProjectPathMissing               (* FileNotFoundError *)
| MemoryFileMissing                (* FileNotFoundError *)
| MemoryFileUnreadable             (* the exception of [open] or [f.read], not caught *)
| FailedToApplyPatch (e : error)   (* RuntimeError(f"Failed to apply patch: {e}") *)
| FailedToWrite (w : write_error). (* the same RuntimeError, for the exception of the write *)

(** The messages sent to the standard error stream are left out. *)
Definition update_project_memory (fs : filesystem) (patch_content : str)
  : filesystem * outcome :=
  if negb (project_is_dir fs) then (fs, ProjectPathMissing)
  else
    match memory_file fs with
    | None => (fs, MemoryFileMissing)
    | Some stored =>
        if read_fails fs Utf8 stored then (fs, MemoryFileUnreadable)
        else
          let original_content := universal_newlines stored in
          match parse_search_replace_blocks patch_content with
          | Raise e => (fs, FailedToApplyPatch e)
          | Ok [] => (fs, NoBlocks)
          | Ok blocks =>
              match apply_blocks original_content blocks with
              | Raise e => (fs, FailedToApplyPatch e)
              | Ok (current_content, applied_blocks) =>
                  match write_text Utf8 fs current_content with
                  | (fs', None) => (fs', Applied applied_blocks)
                  | (fs', Some w) => (fs', FailedToWrite w)
                  end
              end
          end
    end.

(** ** The server: [get_project_memory] and [set_project_memory] *)

(** The exceptions of the two tools: [FileNotFoundError] for the project
    path, [PermissionError], the [FileNotFoundError] of [open] on a memory
    file that does not exist, the exception of a read that fails, and that
    of a write that fails. *)
Inductive access_error :=
| ProjectPathNotFound
| ProjectPathNotAllowed
| MemoryFileNotFound
| MemoryFileNotRead
| MemoryFileNotWritten (w : write_error).

Inductive access (A : Type) :=
| Returned (a : A)
| Refused (e : access_error).

Arguments Returned {A} a.
Arguments Refused {A} e.

(** [any(str(pp).startswith(base) for base in allowed_directories)] *)
Definition in_allowed_directories (allowed_directories : list str) (pp : str) : bool :=
  existsb (fun base => prefix base pp) allowed_directories.

(** [pp] is the resolved project path as a string and [fs] what the file
    system holds at that path; a path that is a directory exists, so the
    test [not pp.exists() or not pp.is_dir()] is the test that it is not a
    directory.  The memory file is read and written in the encoding of the
    locale. *)
Definition get_project_memory (allowed_directories : list str) (pp : str)
           (fs : filesystem) : access str :=
  if negb (project_is_dir fs) then Refused ProjectPathNotFound
  else if negb (in_allowed_directories allowed_directories pp)
       then Refused ProjectPathNotAllowed
       else match memory_file fs with
            | Some stored =>
                if read_fails fs LocaleEncoding stored then Refused MemoryFileNotRead
                else Returned (universal_newlines stored)
            | None => Refused MemoryFileNotFound
            end.

Definition set_project_memory (allowed_directories : list str) (pp : str)
           (fs : filesystem) (project_info : str) : filesystem * access unit :=
  if negb (project_is_dir fs) then (fs, Refused ProjectPathNotFound)
  else if negb (in_allowed_directories allowed_directories pp)
       then (fs, Refused ProjectPathNotAllowed)
       else match write_text LocaleEncoding fs project_info with
            | (fs', None) => (fs', Returned tt)
            | (fs', Some w) => (fs', Refused (MemoryFileNotWritten w))
            end.

(** ** Definitions used by the statements *)

(** A block written out in the format of the tool: the three markers, each
    on a line of its own ended by a line feed, around the two payloads. *)
Definition render_block (b : block) : str :=
  search_marker ++ LF :: fst b ++ LF :: separator ++ LF :: snd b ++ LF :: replace_marker.

(** Blocks written one after the other, a line feed between two blocks and,
    if [final_newline], one after the last. *)
Fixpoint render_patch (final_newline : bool) (blocks : list block) : str :=
  match blocks with
  | [] => []
  | b :: rest =>
      render_block b ++
      match rest with
      | [] => if final_newline then [LF] else []
      | _ :: _ => LF :: render_patch final_newline rest
      end
  end.

(** A payload that contains none of the three marker literals. *)
Definition marker_free (b : block) : Prop :=
  has_marker (fst b) = false /\ has_marker (snd b) = false.

(** The number of lines of the patch text that, once trimmed, are [marker]. *)
Definition line_count (marker patch_content : str) : nat :=
  length (filter (PyStr.eqb marker) (map strip (splitlines patch_content))).

(** Every index at which [sub] occurs in [s], overlapping occurrences
    included. *)
Definition occurrences (sub s : str) : list nat :=
  filter (fun i => prefix sub (skipn i s)) (seq 0 (S (length s))).

(** The lines up to the first line equal to [target], and the lines after
    it. *)
Fixpoint break_at (target : str) (lines : list str) : option (list str * list str) :=
  match lines with
  | [] => None
  | l :: rest =>
      if PyStr.eqb l target then Some ([], rest)
      else match break_at target rest with
           | Some (before, after) => Some (l :: before, after)
           | None => None
           end
  end.

(** The line-by-line scan as the specification words it, one line at a time:
    outside a block, in the search part, or in the replace part of a block.
    [n] is the number of blocks already taken; with [guard] the payloads of
    a block are checked for marker literals before the block is taken. *)
Inductive scan_state :=
| Outside
| InSearch (acc : list str)
| InReplace (search_lines acc : list str).

Fixpoint scan_lines (guard : bool) (st : scan_state) (n : nat) (lines : list str)
  : result (list block) :=
  match lines with
  | [] =>
      match st with
      | Outside => Ok []
      | InSearch _ => Raise MissingSeparator
      | InReplace _ _ => Raise MissingReplaceMarker
      end
  | l :: rest =>
      match st with
      | Outside =>
          if PyStr.eqb l search_marker then scan_lines guard (InSearch []) n rest
          else scan_lines guard Outside n rest
      | InSearch acc =>
          if PyStr.eqb l separator then scan_lines guard (InReplace (rev acc) []) n rest
          else scan_lines guard (InSearch (l :: acc)) n rest
      | InReplace search_lines acc =>
          if PyStr.eqb l replace_marker then
            let search_text := join [LF] search_lines in
            let replace_text := join [LF] (rev acc) in
            if guard && has_marker search_text
            then Raise (SearchContainsMarkers (n + 1))
            else if guard && has_marker replace_text
            then Raise (ReplaceContainsMarkers (n + 1))
            else
              blocks <- scan_lines guard Outside (S n) rest ;;
              Ok ((search_text, replace_text) :: blocks)
          else scan_lines guard (InReplace search_lines (l :: acc)) n rest
      end
  end.

(** The result of the scan as the parser reports it. *)
Definition scan_result (guard : bool) (patch_content : str) : result (list block) :=
  match scan_lines guard Outside 0 (splitlines patch_content) with
  | Ok [] => Raise InvalidPatchFormat
  | r => r
  end.

(** The group of three the sequence check expects. *)
Definition marker_triple : list str := [search_marker; separator; replace_marker].

(** [n] groups of three in a row. *)
Definition marker_triples (n : nat) : list str := concat (repeat marker_triple n).

(** The errors of the validator and of the parser, as opposed to those of
    the applier. *)
Definition is_apply_error (e : error) : bool :=
  match e with
  | AmbiguousMatch _ _ | SearchNotFound _ => true
  | _ => false
  end.

(** A directory path [pp] that is [base] or lies below it, [sep] being the
    separator of path components: [pp] continues [base], and either is
    [base], or continues it by the separator, or [base] ends in the
    separator, as the path of a root does. *)
Definition inside_directory (sep : char) (base pp : str) : Prop :=
  exists rest,
    pp = base ++ rest /\
    (rest = [] \/ (exists rest', rest = sep :: rest') \/
     (exists base', base = base' ++ [sep])).

(** A text whose only line ends are line feeds. *)
Definition only_LF_line_ends (s : str) : Prop :=
  forall c, In c s -> is_linebreak c = true -> c = LF.

(** The total length of the search texts and of the replace texts. *)
Definition search_length (blocks : list block) : nat :=
  list_sum (map (fun b => length (fst b)) blocks).

Definition replace_length (blocks : list block) : nat :=
  list_sum (map (fun b => length (snd b)) blocks).

(** A block given by the lines of its two parts, the lines of a patch made
    of such blocks, and these lines written out with a carriage return and a
    line feed after each, the last one only if [final_newline]. *)
Definition line_block := (list str * list str)%type.

Definition block_of_lines (b : line_block) : block :=
  (join [LF] (fst b), join [LF] (snd b)).

Definition lines_of_block (b : line_block) : list str :=
  search_marker :: fst b ++ separator :: snd b ++ [replace_marker].

Fixpoint crlf_text (final_newline : bool) (lines : list str) : str :=
  match lines with
  | [] => []
  | l :: rest =>
      l ++ match rest with
           | [] => if final_newline then [CR; LF] else []
           | _ :: _ => CR :: LF :: crlf_text final_newline rest
           end
  end.

Definition render_crlf (final_newline : bool) (blocks : list line_block) : str :=
  crlf_text final_newline (flat_map lines_of_block blocks).

(** A line: a text without any of the characters that end a line. *)
Definition is_line (l : str) : Prop :=
  forall c, In c l -> is_linebreak c = false.

(** A block whose parts are made of lines and, joined with line feeds,
    contain no marker literal. *)
Definition clean_line_block (b : line_block) : Prop :=
  Forall is_line (fst b) /\ Forall is_line (snd b) /\
  marker_free (block_of_lines b).

(** ** Inputs of the examples *)

Definition doc_a_b_a : str := lit "a b a".
Definition doc_foo : str := lit "foo".
Definition doc_aaa : str := lit "aaa".
Definition doc_ab : str := lit "ab".

(** One marker literal glued to other text on its line: no line is a
    marker, and the text holds the literal once. *)
Definition patch_glued_marker : str := lit "x<<<<<<< SEARCH".

(** The separator and the closing marker glued on one line after an opening
    marker on a line of its own. *)
Definition patch_glued_tail : str :=
  search_marker ++ LF :: lit "x=======>>>>>>> REPLACE".

(** A second opening marker glued to the text of the search part of the
    first block, before the block's closing marker; the separator and the
    closing marker occur a second time glued to other text, which keeps the
    three counts equal. *)
Definition patch_nested : str :=
  search_marker ++ LF :: lit "a " ++ search_marker ++ LF ::
  separator ++ LF :: separator ++ lit " x" ++ LF ::
  replace_marker ++ LF :: replace_marker ++ lit " x".

(** A second opening marker on a line of its own inside the first block. *)
Definition patch_nested_lines : str :=
  search_marker ++ LF :: search_marker ++ LF :: lit "a" ++ LF ::
  separator ++ LF :: lit "b" ++ LF :: replace_marker.

(** The pieces a written patch is made of, line feeds apart. *)
Definition block_pieces (b : block) : list str :=
  [search_marker; fst b; separator; snd b; replace_marker].

Definition patch_pieces (final_newline : bool) (blocks : list block) : list str :=
  flat_map block_pieces blocks ++ (if final_newline then [[]] else []).

(** One block whose opening marker is followed by a space on its line. *)
Definition patch_trailing_space : str :=
  search_marker ++ lit " " ++ LF :: lit "a" ++ LF ::
  separator ++ LF :: lit "b" ++ LF :: replace_marker.

(** Two blocks, the first with no line at all in its search part. *)
Definition patch_no_search_line : str :=
  search_marker ++ LF :: separator ++ LF :: lit "b" ++ LF :: replace_marker ++ LF ::
  search_marker ++ LF :: lit "c" ++ LF :: separator ++ LF :: lit "d" ++ LF ::
  replace_marker.

(** One block with lines ended by a carriage return and a line feed, whose
    search part is a line that holds the three marker literals among other
    text. *)
Definition leaking_line : str :=
  search_marker ++ lit " x " ++ separator ++ lit " " ++ replace_marker.

Definition patch_crlf_leak : str :=
  search_marker ++ CR :: LF :: leaking_line ++ CR :: LF ::
  separator ++ CR :: LF :: lit "b" ++ CR :: LF :: replace_marker.

(** The same format with clean payloads. *)
Definition patch_crlf : str :=
  search_marker ++ CR :: LF :: lit "a" ++ CR :: LF ::
  separator ++ CR :: LF :: lit "b" ++ CR :: LF :: replace_marker.

(** A project directory whose memory file holds "foo" and has not been
    written yet, on a platform that ends lines with a line feed and where
    reading and writing the file do not fail; and a patch of one block for
    it. *)
Definition fs_foo : filesystem :=
  {| project_is_dir := true; memory_file := Some doc_foo; writes := [];
     linesep := [LF];
     read_fails := fun _ _ => false;
     open_fails := false;
     write_fails := fun _ _ => None |}.

Definition patch_foo : str := render_patch false [(lit "foo", lit "foobar")].

(** A patch of one block that replaces "foo" by a lone surrogate, U+DC80, a
    code point that a Python string can hold and UTF-8 does not encode. *)
Definition surrogate_text : str := [56448%N].

Definition patch_surrogate : str := render_patch false [(lit "foo", surrogate_text)].

(** A patch text made of blocks and of other text, each on lines of its
    own: a segment is a block, written as its five pieces, or a text, and
    the text of the patch is the pieces of its segments, a line feed between
    any two.  An empty text between two blocks is an empty line, and after
    the last block a final line feed. *)
Inductive segment :=
| BlockSegment (b : block)
| TextSegment (text : str).

Definition segment_pieces (seg : segment) : list str :=
  match seg with
  | BlockSegment b => block_pieces b
  | TextSegment text => [text]
  end.

Definition segments_text (segments : list segment) : str :=
  join [LF] (flat_map segment_pieces segments).

Fixpoint segment_blocks (segments : list segment) : list block :=
  match segments with
  | [] => []
  | BlockSegment b :: rest => b :: segment_blocks rest
  | TextSegment _ :: rest => segment_blocks rest
  end.

(** A segment that contains no marker literal, the markers of a block
    apart. *)
Definition clean_segment (seg : segment) : Prop :=
  match seg with
  | BlockSegment b => marker_free b
  | TextSegment text => has_marker text = false
  end.

(** [sub] occurs in [s] at index [i]. *)
Definition occurs_at (sub s : str) (i : nat) : Prop :=
  prefix sub (skipn i s) = true.

(** Increasing positions, each at least [width] after the one before. *)
Fixpoint spaced (width : nat) (positions : list nat) : Prop :=
  match positions with
  | [] => True
  | p :: rest => Forall (fun q => p + width <= q) rest /\ spaced width rest
  end.

(** Occurrences of [sub] in [s] no two of which overlap. *)
Definition non_overlapping_occurrences (sub s : str) (positions : list nat) : Prop :=
  spaced (length sub) positions /\ Forall (occurs_at sub s) positions.

(** ** Strings: basic facts *)

Section StringFacts.

Lemma eqb_eq (a b : str) : PyStr.eqb a b = true <-> a = b.
Proof.
  revert b; induction a as [|x a IH]; intros [|y b]; simpl; split; intro H;
    try reflexivity; try discriminate.
  - apply andb_true_iff in H as [H1 H2]. apply N.eqb_eq in H1.
    apply IH in H2. now subst.
  - injection H as -> ->. rewrite N.eqb_refl. simpl. now apply IH.
Qed.

Lemma eqb_refl (a : str) : PyStr.eqb a a = true.
Proof. now apply eqb_eq. Qed.

Lemma eqb_neq (a b : str) : PyStr.eqb a b = false <-> a <> b.
Proof.
  split; intro H.
  - intro E. apply eqb_eq in E. congruence.
  - destruct (PyStr.eqb a b) eqn:E; [apply eqb_eq in E; contradiction | reflexivity].
Qed.

Lemma prefix_nil_r (p : str) : prefix p [] = true -> p = [].
Proof. destruct p; [reflexivity | discriminate]. Qed.

Lemma prefix_app (p s : str) : prefix p (p ++ s) = true.
Proof. induction p as [|x p IH]; simpl; [reflexivity|]. now rewrite N.eqb_refl. Qed.

Lemma prefix_split (p s : str) :
  prefix p s = true -> s = p ++ skipn (length p) s.
Proof.
  revert s; induction p as [|x p IH]; intros s H; simpl in *; [reflexivity|].
  destruct s as [|y s]; [discriminate|].
  apply andb_true_iff in H as [H1 H2]. apply N.eqb_eq in H1. subst y.
  simpl. f_equal. now apply IH.
Qed.

Lemma prefix_length (p s : str) : prefix p s = true -> length p <= length s.
Proof.
  intro H. apply prefix_split in H. rewrite H, length_app. lia.
Qed.

Lemma prefix_app_l (p a b : str) : prefix p a = true -> prefix p (a ++ b) = true.
Proof.
  intro H. apply prefix_split in H. rewrite H, <- app_assoc. apply prefix_app.
Qed.

(** A string without the character [c] that starts [a ++ c :: b] lies
    within [a]. *)
Lemma prefix_before_char (c : char) (p a b : str) :
  ~ In c p -> prefix p (a ++ c :: b) = prefix p a.
Proof.
  revert a; induction p as [|x p IH]; intros a Hc; simpl; [reflexivity|].
  destruct a as [|y a]; simpl.
  - destruct (N.eqb x c) eqn:E; [|reflexivity].
    apply N.eqb_eq in E. exfalso. apply Hc. now left.
  - rewrite IH; [reflexivity|]. intro Hin. apply Hc. now right.
Qed.

Lemma index_of_none (sub s : str) :
  index_of sub s = None -> forall i, prefix sub (skipn i s) = false.
Proof.
  induction s as [|c t IH]; simpl; intros H i.
  - destruct (prefix sub []) eqn:E; [discriminate|]. now destruct i.
  - destruct (prefix sub (c :: t)) eqn:E; [discriminate|].
    destruct (index_of sub t); [discriminate|].
    destruct i; simpl; [exact E | now apply IH].
Qed.

Lemma index_of_some (sub s : str) (i : nat) :
  index_of sub s = Some i ->
  prefix sub (skipn i s) = true /\ i <= length s /\
  forall j, j < i -> prefix sub (skipn j s) = false.
Proof.
  revert i; induction s as [|c t IH]; simpl; intros i H.
  - destruct (prefix sub []) eqn:E; [|discriminate].
    injection H as <-. simpl. repeat split; [exact E | lia | intros; lia].
  - destruct (prefix sub (c :: t)) eqn:E.
    + injection H as <-. simpl. repeat split; [exact E | lia | intros; lia].
    + destruct (index_of sub t) as [k|] eqn:Ek; [|discriminate].
      injection H as <-. destruct (IH k eq_refl) as (H1 & H2 & H3).
      simpl. repeat split; [exact H1 | lia |].
      intros [|j] Hj; simpl; [exact E | apply H3; lia].
Qed.

Lemma contains_false (sub s : str) :
  contains sub s = false -> forall i, prefix sub (skipn i s) = false.
Proof.
  unfold contains. destruct (index_of sub s) eqn:E; [discriminate|].
  intros _. now apply index_of_none.
Qed.

Lemma contains_true (sub s : str) (i : nat) :
  prefix sub (skipn i s) = true -> contains sub s = true.
Proof.
  unfold contains. destruct (index_of sub s) eqn:E; [reflexivity|].
  intro H. rewrite (index_of_none _ _ E) in H. discriminate.
Qed.

Lemma contains_app (sub a b c : str) : contains sub (a ++ sub ++ c) = true.
Proof.
  apply contains_true with (i := length a).
  rewrite skipn_app, skipn_all, Nat.sub_diag. simpl. apply prefix_app.
Qed.

End StringFacts.

(** ** Strings: the scan behind [count], [replace] and [split] *)

Section Scan.

Variable sub : str.

Lemma count_from_skip (k : nat) (s : str) :
  k <= length s -> count_from k sub s = count_from 0 sub (skipn k s).
Proof.
  revert k; induction s as [|c t IH]; intros [|k] Hk; simpl in *;
    try reflexivity; try lia.
  apply IH. lia.
Qed.

Lemma replace_from_skip (new : str) (k : nat) (s : str) :
  k <= length s -> replace_from k sub new s = replace_from 0 sub new (skipn k s).
Proof.
  revert k; induction s as [|c t IH]; intros [|k] Hk; simpl in *;
    try reflexivity; try lia.
  apply IH. lia.
Qed.

Lemma split_from_skip (cur : str) (k : nat) (s : str) :
  k <= length s -> split_from k sub cur s = split_from 0 sub cur (skipn k s).
Proof.
  revert k; induction s as [|c t IH]; intros [|k] Hk; simpl in *;
    try reflexivity; try lia.
  apply IH. lia.
Qed.

Hypothesis sub_nonempty : sub <> [].

Lemma prefix_nonempty (s : str) :
  prefix sub s = true -> exists c t, s = c :: t /\ length sub - 1 <= length t /\
                                     skipn (length sub) s = skipn (length sub - 1) t.
Proof.
  intro H. pose proof (prefix_length _ _ H) as L.
  destruct sub as [|x p]; [contradiction|].
  destruct s as [|c t]; [discriminate|].
  exists c, t. simpl in *. rewrite Nat.sub_0_r. repeat split. lia.
Qed.

(** The scan at an occurrence: it is counted and the scan resumes after it. *)
Lemma count_match (s : str) :
  prefix sub s = true -> count s sub = S (count (skipn (length sub) s) sub).
Proof.
  intro H. destruct (prefix_nonempty _ H) as (c & t & -> & L & E).
  unfold count. rewrite E. simpl. rewrite H.
  now rewrite count_from_skip.
Qed.

Lemma count_nomatch (c : char) (t : str) :
  prefix sub (c :: t) = false -> count (c :: t) sub = count t sub.
Proof. intro H. unfold count. simpl. now rewrite H. Qed.

Lemma count_nil : count [] sub = 0.
Proof. unfold count. simpl. destruct sub; [contradiction | reflexivity]. Qed.

Lemma replace_match (new s : str) :
  prefix sub s = true ->
  replace s sub new = new ++ replace (skipn (length sub) s) sub new.
Proof.
  intro H. destruct (prefix_nonempty _ H) as (c & t & -> & L & E).
  unfold replace. rewrite E. simpl. rewrite H.
  rewrite replace_from_skip by exact L.
  destruct sub; [contradiction | reflexivity].
Qed.

Lemma replace_nomatch (new : str) (c : char) (t : str) :
  prefix sub (c :: t) = false -> replace (c :: t) sub new = c :: replace t sub new.
Proof. intro H. unfold replace. simpl. now rewrite H. Qed.

Lemma replace_nil (new : str) : replace [] sub new = [].
Proof. unfold replace. simpl. destruct sub; [contradiction | reflexivity]. Qed.

(** The scan over a stretch [pre] in which no occurrence starts. *)
Lemma count_no_occurrence (pre s : str) :
  (forall i, i < length pre -> prefix sub (skipn i (pre ++ s)) = false) ->
  count (pre ++ s) sub = count s sub.
Proof.
  induction pre as [|c pre IH]; intro H; [reflexivity|].
  simpl. rewrite count_nomatch.
  - apply IH. intros i Hi. apply (H (S i)). simpl. lia.
  - apply (H 0). simpl. lia.
Qed.

Lemma replace_no_occurrence (new pre s : str) :
  (forall i, i < length pre -> prefix sub (skipn i (pre ++ s)) = false) ->
  replace (pre ++ s) sub new = pre ++ replace s sub new.
Proof.
  induction pre as [|c pre IH]; intro H; [reflexivity|].
  simpl. rewrite replace_nomatch.
  - f_equal. apply IH. intros i Hi. apply (H (S i)). simpl. lia.
  - apply (H 0). simpl. lia.
Qed.

Lemma count_zero_iff (s : str) :
  count s sub = 0 <-> forall i, prefix sub (skipn i s) = false.
Proof.
  split.
  - induction s as [|c t IH]; intros H i.
    + destruct i; simpl; destruct sub; try contradiction; reflexivity.
    + destruct (prefix sub (c :: t)) eqn:E.
      * rewrite count_match in H by exact E. discriminate.
      * rewrite count_nomatch in H by exact E.
        destruct i; simpl; [exact E | now apply IH].
  - intro H. rewrite <- (app_nil_r s), count_no_occurrence, count_nil; [reflexivity|].
    intros i _. rewrite app_nil_r. apply H.
Qed.

Lemma replace_count_zero (new s : str) :
  count s sub = 0 -> replace s sub new = s.
Proof.
  intro H. rewrite count_zero_iff in H.
  rewrite <- (app_nil_r s) at 1. rewrite replace_no_occurrence, replace_nil.
  - apply app_nil_r.
  - intros i _. rewrite app_nil_r. apply H.
Qed.

(** The occurrences that are counted do not overlap: together they fit in
    the text. *)
Lemma count_fits (s : str) : count s sub * length sub <= length s.
Proof.
  remember (length s) as n eqn:En. revert s En.
  induction n as [n IH] using lt_wf_ind. intros s ->.
  destruct s as [|c t]; [rewrite count_nil; simpl; lia|].
  destruct (prefix sub (c :: t)) eqn:E.
  - rewrite count_match by exact E.
    pose proof (prefix_length _ _ E) as L.
    assert (Hs : 0 < length sub) by (destruct sub; [contradiction | simpl; lia]).
    pose proof (length_skipn (length sub) (c :: t)) as Lk.
    specialize (IH (length (skipn (length sub) (c :: t))) ltac:(lia) _ eq_refl).
    rewrite Nat.mul_succ_l. lia.
  - rewrite count_nomatch by exact E.
    specialize (IH (length t) ltac:(simpl; lia) t eq_refl). simpl length. lia.
Qed.

(** A text with exactly one counted occurrence: where it is, and what
    [replace] makes of it. *)
Lemma count_one (s : str) :
  count s sub = 1 ->
  exists pre post,
    s = pre ++ sub ++ post /\
    (forall i, i < length pre -> prefix sub (skipn i s) = false) /\
    count post sub = 0 /\
    forall new, replace s sub new = pre ++ new ++ post.
Proof.
  induction s as [|c t IH]; intro H; [rewrite count_nil in H; discriminate|].
  destruct (prefix sub (c :: t)) eqn:E.
  - exists [], (skipn (length sub) (c :: t)).
    rewrite count_match in H by exact E. injection H as H.
    repeat split.
    + simpl. now apply prefix_split.
    + simpl. intros; lia.
    + exact H.
    + intro new. rewrite replace_match by exact E.
      now rewrite replace_count_zero.
  - rewrite count_nomatch in H by exact E.
    destruct (IH H) as (pre & post & -> & Hpre & Hpost & Hrep).
    exists (c :: pre), post. repeat split.
    + intros [|i] Hi; simpl; [exact E | apply Hpre; simpl in Hi; lia].
    + exact Hpost.
    + intro new. rewrite replace_nomatch by exact E. simpl. f_equal. apply Hrep.
Qed.

Lemma skipn_prefix_app (s post : str) : skipn (length s) (s ++ post) = post.
Proof. now rewrite skipn_app, skipn_all, Nat.sub_diag. Qed.

(** The converse of [count_one]. *)
Lemma count_one_intro (pre post : str) :
  (forall i, i < length pre -> prefix sub (skipn i (pre ++ sub ++ post)) = false) ->
  count post sub = 0 ->
  count (pre ++ sub ++ post) sub = 1 /\
  forall new, replace (pre ++ sub ++ post) sub new = pre ++ new ++ post.
Proof.
  intros Hpre Hpost. split.
  - rewrite count_no_occurrence by exact Hpre.
    rewrite count_match by apply prefix_app.
    now rewrite skipn_prefix_app, Hpost.
  - intro new. rewrite replace_no_occurrence by exact Hpre.
    rewrite replace_match by apply prefix_app.
    now rewrite skipn_prefix_app, replace_count_zero.
Qed.

End Scan.

(** An empty string is counted before every character and at the end. *)
Lemma count_empty (s : str) : count s [] = length s + 1.
Proof.
  unfold count. induction s as [|c t IH]; simpl; [reflexivity|].
  now rewrite IH.
Qed.

(** ** The applier *)

Section Applier.

Lemma apply_loop_step (i : nat) (search_text replace_text : str) (rest : list block)
      (current : str) (n : nat) :
  apply_loop i ((search_text, replace_text) :: rest) current n =
  if count current search_text =? 1
  then apply_loop (S i) rest (replace current search_text replace_text) (n + 1)
  else if 1 <? count current search_text
       then Raise (AmbiguousMatch (i + 1) (count current search_text))
       else Raise (SearchNotFound (i + 1)).
Proof. reflexivity. Qed.

Lemma apply_loop_app (blocks1 blocks2 : list block) :
  forall (i : nat) (current : str) (n : nat),
  apply_loop i (blocks1 ++ blocks2) current n =
  match apply_loop i blocks1 current n with
  | Ok (current', n') => apply_loop (i + length blocks1) blocks2 current' n'
  | Raise e => Raise e
  end.
Proof.
  induction blocks1 as [|[s r] blocks1 IH]; intros i current n.
  - simpl. now rewrite Nat.add_0_r.
  - rewrite <- app_comm_cons, !apply_loop_step.
    destruct (count current s =? 1).
    + rewrite IH. simpl length.
      now replace (S i + length blocks1) with (i + S (length blocks1)) by lia.
    + now destruct (1 <? count current s).
Qed.

(** Every block that is applied is counted. *)
Lemma apply_loop_applied (blocks : list block) :
  forall (i : nat) (current final : str) (n m : nat),
  apply_loop i blocks current n = Ok (final, m) -> m = n + length blocks.
Proof.
  induction blocks as [|[s r] blocks IH]; intros i current final n m H.
  - simpl in H. injection H as _ <-. simpl. lia.
  - rewrite apply_loop_step in H.
    destruct (count current s =? 1).
    + apply IH in H. simpl. lia.
    + destruct (1 <? count current s); discriminate.
Qed.

Lemma apply_single (document search_text replace_text final : str) (n : nat) :
  apply_blocks document [(search_text, replace_text)] = Ok (final, n) ->
  count document search_text = 1 /\
  final = replace document search_text replace_text /\ n = 1.
Proof.
  unfold apply_blocks. rewrite apply_loop_step.
  destruct (count document search_text =? 1) eqn:E.
  - apply Nat.eqb_eq in E. simpl. intro H. injection H as <- <-. auto.
  - destruct (1 <? count document search_text); discriminate.
Qed.

Lemma apply_single_one (document search_text replace_text : str) :
  count document search_text = 1 ->
  apply_blocks document [(search_text, replace_text)] =
  Ok (replace document search_text replace_text, 1).
Proof.
  intro H. unfold apply_blocks. rewrite apply_loop_step, H. reflexivity.
Qed.

(** The one occurrence that is counted is the one that is replaced; for an
    empty search text the document is empty too. *)
Lemma replace_one (s sub new : str) :
  count s sub = 1 ->
  exists pre post, s = pre ++ sub ++ post /\ replace s sub new = pre ++ new ++ post.
Proof.
  intro H. destruct sub as [|x sub'].
  - rewrite count_empty in H. destruct s; [|simpl in H; lia].
    exists [], []. split; [reflexivity|]. unfold replace. simpl. now rewrite app_nil_r.
  - destruct (@count_one (x :: sub') ltac:(discriminate) s H)
      as (pre & post & E & _ & _ & R).
    exists pre, post. auto.
Qed.

End Applier.

(** ** Occurrences of a string *)

Section Occurrences.

Lemma filter_two (A : Type) (f : A -> bool) (l : list A) (x y : A) :
  NoDup l -> In x l -> In y l -> f x = true -> f y = true -> x <> y ->
  2 <= length (filter f l).
Proof.
  induction l as [|a l IH]; intros ND Hx Hy Fx Fy Ne; [contradiction|].
  inversion ND as [|? ? Na ND']; subst. simpl.
  assert (Hin : forall z, In z l -> f z = true -> 1 <= length (filter f l)).
  { intros z Hz Fz. assert (Hf : In z (filter f l)) by (apply filter_In; auto).
    destruct (filter f l); [contradiction | simpl; lia]. }
  destruct Hx as [-> | Hx], Hy as [-> | Hy].
  - contradiction.
  - rewrite Fx. simpl. specialize (Hin y Hy Fy). lia.
  - rewrite Fy. simpl. specialize (Hin x Hx Fx). lia.
  - specialize (IH ND' Hx Hy Fx Fy Ne). destruct (f a); simpl; lia.
Qed.

(** When [sub] occurs at one index only, two occurrences are the same. *)
Lemma occurrences_unique (sub s : str) (i j : nat) :
  length (occurrences sub s) = 1 ->
  i <= length s -> j <= length s ->
  prefix sub (skipn i s) = true -> prefix sub (skipn j s) = true -> i = j.
Proof.
  intros H Hi Hj Pi Pj. destruct (Nat.eq_dec i j) as [E | Ne]; [exact E|].
  exfalso. unfold occurrences in H.
  pose proof (@filter_two nat (fun k => prefix sub (skipn k s))
                (seq 0 (S (length s))) i j (seq_NoDup _ _)) as F.
  rewrite !in_seq in F. specialize (F ltac:(lia) ltac:(lia) Pi Pj Ne). lia.
Qed.

Lemma occurrences_empty (s : str) : length (occurrences [] s) = S (length s).
Proof.
  unfold occurrences.
  assert (H : forall l : list nat, filter (fun i => prefix [] (skipn i s)) l = l).
  { induction l as [|a l IH]; [reflexivity | simpl; f_equal; exact IH]. }
  now rewrite H, length_seq.
Qed.

End Occurrences.

(** ** The claims about the applier *)

(** C9: a block whose search text is empty, met with a non-empty current
    document of length n, fails as ambiguous with the count n + 1, whatever
    its position in the sequence; on the empty document it applies and yields
    the replace text. *)
Theorem empty_search_is_ambiguous
        (document replace_text : str) (rest : list block) (i applied : nat) :
  (document <> [] ->
   count document [] = length document + 1 /\
   apply_loop i (([], replace_text) :: rest) document applied =
   Raise (AmbiguousMatch (i + 1) (length document + 1))) /\
  (forall final n,
      apply_loop i (([], replace_text) :: rest) document applied = Ok (final, n) ->
      document = []) /\
  apply_blocks [] [([], replace_text)] = Ok (replace_text, 1).
Proof.
  assert (A : document <> [] ->
              apply_loop i (([], replace_text) :: rest) document applied =
              Raise (AmbiguousMatch (i + 1) (length document + 1))).
  { intro Hne. rewrite apply_loop_step, count_empty.
    destruct document as [|c t]; [contradiction|]. simpl length.
    replace (S (length t) + 1 =? 1) with false by (symmetry; apply Nat.eqb_neq; lia).
    replace (1 <? S (length t) + 1) with true by (symmetry; apply Nat.ltb_lt; lia).
    reflexivity. }
  split; [|split].
  - intro Hne. split; [apply count_empty | now apply A].
  - intros final n H. destruct document as [|c t]; [reflexivity|].
    rewrite A in H by discriminate. discriminate.
  - reflexivity.
Qed.

Lemma empty_search_is_ambiguous_witness :
  count doc_ab [] = 3 /\
  apply_loop 0 [([], lit "x")] doc_ab 0 = Raise (AmbiguousMatch 1 3).
Proof.
  apply (empty_search_is_ambiguous doc_ab (lit "x") [] 0 0).
  vm_compute. discriminate.
Defined.

(** C4: the blocks are folded in order, each one on the document the blocks
    before it have produced: applying [blocks1 ++ blocks2] is applying
    [blocks1] and then, on its result, [blocks2].  On "foo", the blocks
    foo -> foobar and foobar -> baz give "baz", and the second block alone
    fails as not found. *)
Theorem apply_is_sequential_fold :
  (forall (document : str) (blocks1 blocks2 : list block),
      apply_blocks document (blocks1 ++ blocks2) =
      match apply_blocks document blocks1 with
      | Ok (current, applied) =>
          apply_loop (length blocks1) blocks2 current applied
      | Raise e => Raise e
      end) /\
  apply_blocks doc_foo [(lit "foo", lit "foobar"); (lit "foobar", lit "baz")] =
  Ok (lit "baz", 2) /\
  apply_blocks doc_foo [(lit "foobar", lit "baz")] = Raise (SearchNotFound 1).
Proof.
  split; [|split].
  - intros document blocks1 blocks2. unfold apply_blocks.
    now rewrite apply_loop_app.
  - reflexivity.
  - reflexivity.
Qed.

(** C3: for the block that follows the blocks [done] already applied, the
    occurrences of its search text are counted in the current document: one
    occurrence is replaced by the replace text and the fold goes on; none
    fails as not found, several fail as ambiguous with the count, both
    naming the 1-based index of the block.  On "a b a" the block a -> x
    fails as ambiguous with the count 2. *)
Theorem apply_counts_exact_occurrences
        (document current search_text replace_text : str)
        (done rest : list block) (applied : nat) :
  apply_blocks document done = Ok (current, applied) ->
  (count current search_text = 1 ->
   (exists pre post,
       current = pre ++ search_text ++ post /\
       replace current search_text replace_text = pre ++ replace_text ++ post) /\
   apply_blocks document (done ++ (search_text, replace_text) :: rest) =
   apply_loop (S (length done)) rest
              (replace current search_text replace_text) (applied + 1)) /\
  (count current search_text = 0 ->
   apply_blocks document (done ++ (search_text, replace_text) :: rest) =
   Raise (SearchNotFound (length done + 1))) /\
  (1 < count current search_text ->
   apply_blocks document (done ++ (search_text, replace_text) :: rest) =
   Raise (AmbiguousMatch (length done + 1) (count current search_text))) /\
  apply_blocks doc_a_b_a [(lit "a", lit "x")] = Raise (AmbiguousMatch 1 2).
Proof.
  intro Hdone.
  assert (E : apply_blocks document (done ++ (search_text, replace_text) :: rest) =
              apply_loop (length done) ((search_text, replace_text) :: rest)
                         current applied).
  { unfold apply_blocks in *. now rewrite apply_loop_app, Hdone. }
  rewrite E, apply_loop_step. repeat split.
  - now apply replace_one.
  - rewrite H. reflexivity.
  - intros ->. reflexivity.
  - intro H. replace (count current search_text =? 1) with false
      by (symmetry; apply Nat.eqb_neq; lia).
    now replace (1 <? count current search_text) with true
      by (symmetry; apply Nat.ltb_lt; lia).
Qed.

Lemma apply_counts_exact_occurrences_witness :
  apply_blocks doc_foo [(lit "foo", lit "foobar"); (lit "oba", lit "x")] =
  apply_loop 2 [] (lit "foxr") 2.
Proof.
  pose proof (apply_counts_exact_occurrences
                doc_foo (lit "foobar") (lit "oba") (lit "x")
                [(lit "foo", lit "foobar")] [] 1) as H.
  destruct H as [H _]; [reflexivity|].
  destruct H as [_ H]; [reflexivity|].
  exact H.
Defined.

(** C7, as the claim states it, fails: on "ab" the block a -> b applies and
    gives "bb", where the inverse block b -> a is ambiguous; and on "ab" the
    block b -> aa gives "aaa", where the inverse block aa -> b applies but
    to the leftmost "aa", giving "ba". *)
Lemma round_trip_counterexample :
  count doc_ab (lit "a") = 1 /\
  apply_blocks doc_ab [(lit "a", lit "b")] = Ok (lit "bb", 1) /\
  apply_blocks (lit "bb") [(lit "b", lit "a")] = Raise (AmbiguousMatch 1 2) /\
  count doc_ab (lit "b") = 1 /\
  apply_blocks doc_ab [(lit "b", lit "aa")] = Ok (doc_aaa, 1) /\
  apply_blocks doc_aaa [(lit "aa", lit "b")] = Ok (lit "ba", 1).
Proof. repeat split. Qed.

(** C7, amended: when the block applies to D and its replace text occurs at
    one index only of the resulting document, overlapping occurrences
    included, the inverse block applies to the result and restores D. *)
Theorem round_trip
        (document search_text replace_text patched : str) (applied : nat) :
  apply_blocks document [(search_text, replace_text)] = Ok (patched, applied) ->
  length (occurrences replace_text patched) = 1 ->
  apply_blocks patched [(replace_text, search_text)] = Ok (document, 1).
Proof.
  intros Happly Hocc.
  apply apply_single in Happly as (Hcount & -> & _).
  destruct search_text as [|x s'].
  { (* an empty search text: the document is empty *)
    rewrite count_empty in Hcount.
    destruct document; [|simpl in Hcount; lia].
    change (replace [] [] replace_text) with replace_text.
    destruct replace_text as [|y r']; [reflexivity|].
    destruct (@count_one_intro (y :: r') ltac:(discriminate) [] [])
      as [C R]; [simpl; intros; lia | reflexivity |].
    simpl app in C, R. rewrite app_nil_r in C, R.
    rewrite apply_single_one by exact C. now rewrite R. }
  set (s := x :: s') in *.
  assert (Hs : s <> []) by discriminate.
  destruct (@count_one s Hs document Hcount) as (pre & post & E & _ & _ & Hrep).
  rewrite Hrep in *. clear Hrep. subst document.
  destruct replace_text as [|y r'].
  { (* an empty replace text occurs once only in the empty document *)
    rewrite occurrences_empty in Hocc. simpl app in *.
    destruct pre; [|simpl in Hocc; lia]. destruct post; [|simpl in Hocc; lia].
    simpl. now rewrite app_nil_r. }
  set (r := y :: r') in *.
  assert (Hr : r <> []) by discriminate.
  assert (Hat : prefix r (skipn (length pre) (pre ++ r ++ post)) = true).
  { rewrite skipn_prefix_app. apply prefix_app. }
  assert (Hlen : length (pre ++ r ++ post) = length pre + length r + length post).
  { rewrite !length_app. lia. }
  destruct (@count_one_intro r Hr pre post) as [C R].
  - intros i Hi. destruct (prefix r (skipn i (pre ++ r ++ post))) eqn:Pi; [|reflexivity].
    assert (i = length pre); [|lia].
    apply (occurrences_unique r (pre ++ r ++ post)); auto; lia.
  - apply count_zero_iff; [exact Hr|]. intro j.
    destruct (prefix r (skipn j post)) eqn:Pj; [|reflexivity].
    assert (Hj : j <= length post).
    { destruct (Nat.le_gt_cases j (length post)) as [L | G]; [exact L|].
      rewrite skipn_all2 in Pj by lia. discriminate. }
    assert (length pre + length r + j = length pre); [|subst r; simpl in *; lia].
    apply (occurrences_unique r (pre ++ r ++ post)); auto; try lia.
    replace (length pre + length r + j) with (j + (length r + length pre)) by lia.
    now rewrite <- !skipn_skipn, !skipn_prefix_app.
  - rewrite apply_single_one by exact C. now rewrite R.
Qed.

Lemma round_trip_witness :
  apply_blocks (lit "foobar") [(lit "foobar", lit "foo")] = Ok (doc_foo, 1).
Proof.
  apply (round_trip doc_foo (lit "foo") (lit "foobar") (lit "foobar") 1);
    reflexivity.
Defined.

(** ** The claims about the tool and the validator *)

(** The parser returns at least one block or fails. *)
Lemma parse_nonempty (patch_content : str) (blocks : list block) :
  parse_search_replace_blocks patch_content = Ok blocks -> blocks <> [].
Proof.
  unfold parse_search_replace_blocks.
  destruct (validate_block_integrity patch_content) as [[]|e]; [|discriminate].
  simpl bind. destruct (Regex.findall pattern patch_content) as [|m ms].
  - unfold fallback_parse.
    destruct (fallback_loop _ _ 0 []) as [[[|b bs]|e]|]; try discriminate.
    intro H. injection H as <-. discriminate.
  - destruct (check_matches 0 (m :: ms)) as [[]|e]; [|discriminate].
    simpl. intro H. injection H as <-. discriminate.
Qed.

(** C2, as the claim states it, fails: not every failure of the tool leaves
    the memory file as it was.  On the memory file "foo", the patch that
    replaces "foo" by a lone surrogate parses, its one block applies, and the
    write, after emptying the file, fails on the text that UTF-8 does not
    encode: the tool fails and the file is empty. *)
Lemma update_write_failure_counterexample :
  memory_file fs_foo = Some doc_foo /\
  parse_search_replace_blocks patch_surrogate = Ok [(lit "foo", surrogate_text)] /\
  apply_blocks doc_foo [(lit "foo", surrogate_text)] = Ok (surrogate_text, 1) /\
  snd (update_project_memory fs_foo patch_surrogate) = FailedToWrite EncodeError /\
  memory_file (fst (update_project_memory fs_foo patch_surrogate)) = Some [].
Proof. vm_compute. repeat split. Qed.

(** C2, amended: on every failure of [update_project_memory] that comes from
    a format error of validation or parsing or from a not-found or ambiguity
    error of any block, and on every failure that comes before them, the
    file system is as it was and no write has been attempted.  The memory
    file is opened for writing at most once, and only after every block of
    the sequence has applied to the text read from it; when that write
    succeeds the tool reports the blocks applied and the file holds the
    fully folded document; when it fails the tool fails too, and the file is
    as the failed write leaves it. *)
Theorem update_is_atomic (fs : filesystem) (patch_content : str) :
  match update_project_memory fs patch_content with
  | (fs', Applied applied_blocks) =>
      exists stored blocks final,
        memory_file fs = Some stored /\
        parse_search_replace_blocks patch_content = Ok blocks /\
        apply_blocks (universal_newlines stored) blocks = Ok (final, applied_blocks) /\
        applied_blocks = length blocks /\
        memory_file fs' = Some (write_newlines (linesep fs) final) /\
        writes fs' = final :: writes fs
  | (fs', FailedToWrite w) =>
      exists stored blocks final applied_blocks,
        memory_file fs = Some stored /\
        parse_search_replace_blocks patch_content = Ok blocks /\
        apply_blocks (universal_newlines stored) blocks = Ok (final, applied_blocks) /\
        write_text Utf8 fs final = (fs', Some w) /\
        (writes fs' = writes fs \/ writes fs' = final :: writes fs)
  | (fs', _) => fs' = fs
  end /\
  (forall stored,
      project_is_dir fs = true ->
      memory_file fs = Some stored ->
      read_fails fs Utf8 stored = false ->
      (forall e,
          parse_search_replace_blocks patch_content = Raise e ->
          update_project_memory fs patch_content = (fs, FailedToApplyPatch e)) /\
      (forall blocks e,
          parse_search_replace_blocks patch_content = Ok blocks ->
          apply_blocks (universal_newlines stored) blocks = Raise e ->
          update_project_memory fs patch_content = (fs, FailedToApplyPatch e)) /\
      (forall blocks final applied_blocks,
          parse_search_replace_blocks patch_content = Ok blocks ->
          apply_blocks (universal_newlines stored) blocks = Ok (final, applied_blocks) ->
          applied_blocks = length blocks /\
          update_project_memory fs patch_content =
          (fst (write_text Utf8 fs final),
           match snd (write_text Utf8 fs final) with
           | None => Applied applied_blocks
           | Some w => FailedToWrite w
           end))).
Proof.
  split.
  - unfold update_project_memory.
    destruct (project_is_dir fs); simpl; [|reflexivity].
    destruct (memory_file fs) as [stored|] eqn:Em; [|reflexivity].
    destruct (read_fails fs Utf8 stored); [reflexivity|].
    destruct (parse_search_replace_blocks patch_content) as [[|b blocks]|e] eqn:Ep;
      try reflexivity.
    destruct (apply_blocks (universal_newlines stored) (b :: blocks))
      as [[final n]|e] eqn:Ea; [|reflexivity].
    pose proof Ea as Hn. unfold apply_blocks in Hn. apply apply_loop_applied in Hn.
    destruct (write_text Utf8 fs final) as [fs' [w|]] eqn:Ew.
    + exists stored, (b :: blocks), final, n. repeat split; try assumption.
      unfold write_text in Ew. destruct (open_fails fs).
      * injection Ew as <- _. now left.
      * destruct (existsb is_surrogate final).
        -- injection Ew as <- _. now right.
        -- destruct (write_fails fs Utf8 final); injection Ew as <- _; now right.
    + exists stored, (b :: blocks), final. repeat split; try assumption.
      * unfold write_text in Ew. destruct (open_fails fs); [discriminate|].
        destruct (existsb is_surrogate final); [discriminate|].
        destruct (write_fails fs Utf8 final); [discriminate|].
        now injection Ew as <-.
      * unfold write_text in Ew. destruct (open_fails fs); [discriminate|].
        destruct (existsb is_surrogate final); [discriminate|].
        destruct (write_fails fs Utf8 final); [discriminate|].
        now injection Ew as <-.
  - intros stored Hdir Hfile Hread. unfold update_project_memory.
    rewrite Hdir, Hfile, Hread. simpl negb. cbv iota. split; [|split].
    + intros e ->. reflexivity.
    + intros blocks e Hp Ha. rewrite Hp.
      destruct blocks as [|b blocks]; [discriminate|]. now rewrite Ha.
    + intros blocks final n Hp Ha. split.
      * unfold apply_blocks in Ha. now apply apply_loop_applied in Ha.
      * rewrite Hp. pose proof (parse_nonempty _ _ Hp) as Hne.
        destruct blocks as [|b blocks]; [contradiction|]. cbv zeta. rewrite Ha.
        now destruct (write_text Utf8 fs final) as [fs' [w|]].
Qed.

Lemma update_is_atomic_witness :
  1 = length [(lit "foo", lit "foobar")] /\
  update_project_memory fs_foo patch_foo =
  (fst (write_text Utf8 fs_foo (lit "foobar")),
   match snd (write_text Utf8 fs_foo (lit "foobar")) with
   | None => Applied 1
   | Some w => FailedToWrite w
   end).
Proof.
  apply (proj2 (update_is_atomic fs_foo patch_foo) doc_foo eq_refl eq_refl eq_refl);
    reflexivity.
Defined.

(** The errors each check of the validator can raise. *)
Lemma check_sequence_cases (markers : list str) (i : nat) :
  check_sequence i markers = Ok tt \/
  exists position got, check_sequence i markers = Raise (IncorrectSequence position got).
Proof.
  remember (length markers) as n eqn:En. revert markers i En.
  induction n as [n IH] using lt_wf_ind. intros markers i ->.
  destruct markers as [|m0 [|m1 [|m2 rest]]]; simpl; auto.
  destruct (negb (PyStr.eqb m0 search_marker) || negb (PyStr.eqb m1 separator)
            || negb (PyStr.eqb m2 replace_marker)).
  - right. eauto.
  - apply (IH (length rest)); [simpl; lia | reflexivity].
Qed.

Lemma check_nested_cases (sections : list str) (i : nat) :
  check_nested i sections = Ok tt \/
  exists j, check_nested i sections = Raise (NestedMarker j).
Proof.
  revert i; induction sections as [|sec sections IH]; intro i; simpl; auto.
  destruct (contains search_marker sec
            && (find sec search_marker <? find sec replace_marker)%Z); eauto.
Qed.

(** C5, as the claim states it, fails in both directions: in
    [patch_glued_marker] no line is a marker, the three line counts are
    equal, and the balance check fails; in [patch_glued_tail] the line
    counts are 1, 0 and 0 and validation succeeds. *)
Lemma balance_by_lines_counterexample :
  (line_count search_marker patch_glued_marker = 0 /\
   line_count separator patch_glued_marker = 0 /\
   line_count replace_marker patch_glued_marker = 0 /\
   validate_block_integrity patch_glued_marker = Raise (UnbalancedMarkers 1 0 0)) /\
  (line_count search_marker patch_glued_tail = 1 /\
   line_count separator patch_glued_tail = 0 /\
   line_count replace_marker patch_glued_tail = 0 /\
   validate_block_integrity patch_glued_tail = Ok tt).
Proof. vm_compute. repeat split. Qed.

(** C5, amended: the balance check counts the occurrences of each marker
    literal anywhere in the patch text, as [str.count] does.  When the three
    counts are not all equal, validation fails with the unbalanced-markers
    error that reports them; when they are, validation is the sequence check
    followed by the nesting check and never reports unbalanced markers. *)
Theorem balance_check (patch_content : str) :
  let search_count := count patch_content search_marker in
  let separator_count := count patch_content separator in
  let replace_count := count patch_content replace_marker in
  (~ (search_count = separator_count /\ separator_count = replace_count) ->
   validate_block_integrity patch_content =
   Raise (UnbalancedMarkers search_count separator_count replace_count)) /\
  (search_count = separator_count /\ separator_count = replace_count ->
   validate_block_integrity patch_content =
   (check_sequence 0 (marker_lines patch_content) ;;
    check_nested 1 (tl (split patch_content search_marker))) /\
   forall a b c, validate_block_integrity patch_content <> Raise (UnbalancedMarkers a b c)).
Proof.
  intros search_count separator_count replace_count.
  unfold validate_block_integrity.
  fold search_count separator_count replace_count.
  destruct ((search_count =? separator_count) && (separator_count =? replace_count))
    eqn:E; simpl.
  - apply andb_true_iff in E as [E1 E2].
    apply Nat.eqb_eq in E1, E2. split; [intro H; exfalso; auto|].
    intros _. split; [reflexivity|]. intros a b c.
    destruct (check_sequence_cases (marker_lines patch_content) 0)
      as [-> | (j & g & ->)]; simpl; [|discriminate].
    destruct (check_nested_cases (tl (split patch_content search_marker)) 1)
      as [-> | (j & ->)]; discriminate.
  - split; [reflexivity|]. intros [E1 E2].
    rewrite E1, E2, !Nat.eqb_refl in E. discriminate.
Qed.

Lemma balance_check_witness :
  validate_block_integrity patch_glued_marker = Raise (UnbalancedMarkers 1 0 0).
Proof.
  apply (balance_check patch_glued_marker). vm_compute. intros [H _]. discriminate.
Defined.

(** ** The nesting check *)

Section Split.

Variable sep : str.
Hypothesis sep_nonempty : sep <> [].

(** No segment that [split] returns contains the separator it splits on. *)
Lemma split_from_no_sep (s : str) :
  forall cur : str,
    (forall i, i < length cur -> prefix sep (skipn i (rev cur ++ s)) = false) ->
    forall section, In section (split_from 0 sep cur s) ->
                    forall i, prefix sep (skipn i section) = false.
Proof.
  remember (length s) as n eqn:En. revert s En.
  induction n as [n IH] using lt_wf_ind. intros s -> cur Inv section Hin i.
  assert (Hcur : forall j, prefix sep (skipn j (rev cur)) = false).
  { intro j. destruct (prefix sep (skipn j (rev cur))) eqn:P; [|reflexivity].
    destruct (Nat.le_gt_cases (length cur) j) as [L | G].
    - rewrite skipn_all2 in P by (rewrite length_rev; lia).
      apply prefix_nil_r in P. contradiction.
    - rewrite <- (Inv j G), skipn_app, length_rev.
      replace (j - length cur) with 0 by lia. simpl.
      symmetry. now apply prefix_app_l. }
  destruct s as [|c t]; simpl in Hin.
  - destruct Hin as [<- | []]. apply Hcur.
  - destruct (prefix sep (c :: t)) eqn:P.
    + destruct Hin as [<- | Hin]; [apply Hcur|].
      destruct (prefix_nonempty sep sep_nonempty _ P) as (c' & t' & E & L & _).
      injection E as <- <-.
      rewrite split_from_skip in Hin by exact L.
      apply (IH (length (skipn (length sep - 1) t))) with (s := skipn (length sep - 1) t)
                                                         (cur := []) (section := section).
      * rewrite length_skipn. simpl. lia.
      * reflexivity.
      * simpl. intros; lia.
      * exact Hin.
    + apply (IH (length t)) with (s := t) (cur := c :: cur) (section := section).
      * simpl. lia.
      * reflexivity.
      * intros j Hj. simpl rev. rewrite <- app_assoc. simpl app.
        simpl in Hj. destruct (Nat.eq_dec j (length cur)) as [-> | Ne].
        -- rewrite <- length_rev, skipn_prefix_app. exact P.
        -- apply Inv. lia.
      * exact Hin.
Qed.

Lemma split_no_sep (s section : str) :
  In section (split s sep) -> contains sep section = false.
Proof.
  intro Hin. destruct (contains sep section) eqn:C; [|reflexivity].
  unfold contains in C. destruct (index_of sep section) as [i|] eqn:E; [|discriminate].
  apply index_of_some in E as (P & _).
  rewrite (split_from_no_sep s [] ltac:(simpl; intros; lia) section Hin i) in P.
  discriminate.
Qed.

End Split.

(** The sections the nesting check inspects come from splitting the text on
    the opening marker, so none of them contains one: the check passes on
    every text. *)
Lemma check_nested_passes (sections : list str) :
  (forall section, In section sections -> contains search_marker section = false) ->
  forall i, check_nested i sections = Ok tt.
Proof.
  induction sections as [|sec sections IH]; intros H i; [reflexivity|].
  simpl. rewrite (H sec) by now left. simpl. apply IH.
  intros section Hin. apply H. now right.
Qed.

Lemma check_nested_split (patch_content : str) :
  check_nested 1 (tl (split patch_content search_marker)) = Ok tt.
Proof.
  apply check_nested_passes. intros section Hin.
  apply (split_no_sep search_marker ltac:(discriminate) patch_content).
  destruct (split patch_content search_marker); [contradiction | now right].
Qed.

(** C6: the claim holds of no text.  Validation never reports a nested
    marker.  In [patch_nested] the text after the first opening marker holds
    a second opening marker before the first closing marker, and validation
    succeeds; in [patch_nested_lines] the second opening marker is on a line
    of its own, and validation reports unbalanced markers. *)
Theorem nested_marker_never_reported :
  (forall (patch_content : str) (block : nat),
      validate_block_integrity patch_content <> Raise (NestedMarker block)) /\
  (let interior := skipn (length search_marker) patch_nested in
   (0 <= find interior search_marker < find interior replace_marker)%Z) /\
  validate_block_integrity patch_nested = Ok tt /\
  parse_search_replace_blocks patch_nested = Raise (SearchContainsMarkers 1) /\
  (let interior := skipn (length search_marker) patch_nested_lines in
   (0 <= find interior search_marker < find interior replace_marker)%Z) /\
  validate_block_integrity patch_nested_lines = Raise (UnbalancedMarkers 2 1 1).
Proof.
  split.
  - intros patch_content block. unfold validate_block_integrity.
    destruct (negb _); [discriminate|].
    rewrite check_nested_split.
    destruct (check_sequence_cases (marker_lines patch_content) 0)
      as [-> | (j & g & ->)]; discriminate.
  - vm_compute. repeat split; discriminate.
Qed.

(** ** Texts made of lines that end in a line feed *)

Section LinesOfText.

Lemma splitlines_linebreak (c : char) (t : str) :
  is_linebreak c = true ->
  splitlines (c :: t) =
  [] :: (if N.eqb c CR
         then match t with
              | c' :: t' => if N.eqb c' LF then splitlines t' else splitlines t
              | [] => []
              end
         else splitlines t).
Proof. intro H. simpl. now rewrite H. Qed.

Lemma splitlines_char (c : char) (t : str) :
  is_linebreak c = false ->
  splitlines (c :: t) =
  match splitlines t with
  | [] => [[c]]
  | l :: ls => (c :: l) :: ls
  end.
Proof. intro H. simpl. now rewrite H. Qed.

Lemma splitlines_nonempty (s : str) : s <> [] -> splitlines s <> [].
Proof.
  destruct s as [|c t]; [contradiction|]. intros _.
  destruct (is_linebreak c) eqn:E.
  - rewrite splitlines_linebreak by exact E. discriminate.
  - rewrite splitlines_char by exact E. destruct (splitlines t); discriminate.
Qed.

(** The first line of a text starts the text. *)
Lemma splitlines_first (s l : str) (ls : list str) :
  splitlines s = l :: ls -> exists post, s = l ++ post.
Proof.
  revert l ls; induction s as [|c t IH]; intros l ls H; [discriminate|].
  destruct (is_linebreak c) eqn:E.
  - rewrite splitlines_linebreak in H by exact E. injection H as <- _.
    now exists (c :: t).
  - rewrite splitlines_char in H by exact E.
    destruct (splitlines t) as [|l0 ls0] eqn:Et.
    + injection H as <- _. now exists t.
    + injection H as <- _. destruct (IH l0 ls0 eq_refl) as [post ->].
      now exists post.
Qed.

(** Every line of a text is a part of the text. *)
Lemma splitlines_infix (s : str) :
  forall l, In l (splitlines s) -> exists pre post, s = pre ++ l ++ post.
Proof.
  remember (length s) as n eqn:En. revert s En.
  induction n as [n IH] using lt_wf_ind. intros s -> l Hin.
  destruct s as [|c t]; [contradiction|].
  destruct (is_linebreak c) eqn:E.
  - rewrite splitlines_linebreak in Hin by exact E.
    destruct Hin as [<- | Hin]; [now exists [], (c :: t)|].
    assert (Ht : In l (splitlines t) -> exists pre post, c :: t = pre ++ l ++ post).
    { intro H. destruct (IH (length t) ltac:(simpl; lia) t eq_refl l H) as (pre & post & ->).
      now exists (c :: pre), post. }
    destruct (N.eqb c CR); [|now apply Ht].
    destruct t as [|c' t']; [contradiction|].
    destruct (N.eqb c' LF); [|now apply Ht].
    destruct (IH (length t') ltac:(simpl; lia) t' eq_refl l Hin) as (pre & post & ->).
    now exists (c :: c' :: pre), post.
  - rewrite splitlines_char in Hin by exact E.
    destruct (splitlines t) as [|l0 ls0] eqn:Et.
    + destruct Hin as [<- | []]. now exists [], t.
    + destruct Hin as [<- | Hin].
      * destruct (splitlines_first _ _ _ Et) as [post ->]. now exists [], post.
      * destruct (IH (length t) ltac:(simpl; lia) t eq_refl l) as (pre & post & ->).
        -- rewrite Et. now right.
        -- now exists (c :: pre), post.
Qed.

Lemma lstrip_suffix (s : str) : exists a, s = a ++ lstrip s.
Proof.
  induction s as [|c t [a IH]]; [now exists []|].
  simpl. destruct (isspace c).
  - exists (c :: a). simpl. now f_equal.
  - now exists [].
Qed.

(** A trimmed line is a part of the line. *)
Lemma strip_infix (s : str) : exists a b, s = a ++ strip s ++ b.
Proof.
  unfold strip. destruct (lstrip_suffix s) as [a Ha].
  destruct (lstrip_suffix (rev (lstrip s))) as [b Hb].
  exists a, (rev b). rewrite <- rev_app_distr, <- Hb, rev_involutive. exact Ha.
Qed.

(** A line feed after [a] ends the last line of [a]; it opens an empty line
    of its own when [a] is empty or ends a line itself, unless it completes
    a carriage return. *)
Lemma splitlines_app_LF (a b : str) :
  exists e, (e = [] \/ e = [[]]) /\
            splitlines (a ++ LF :: b) = splitlines a ++ e ++ splitlines b.
Proof.
  remember (length a) as n eqn:En. revert a En.
  induction n as [n IH] using lt_wf_ind. intros a ->.
  destruct a as [|c a'].
  { exists [[]]. split; [now right | reflexivity]. }
  assert (IHa : exists e, (e = [] \/ e = [[]]) /\
            splitlines (a' ++ LF :: b) = splitlines a' ++ e ++ splitlines b).
  { apply (IH (length a')); [simpl; lia | reflexivity]. }
  simpl app. destruct (is_linebreak c) eqn:E.
  - rewrite !splitlines_linebreak by exact E.
    destruct (N.eqb c CR).
    + destruct a' as [|c' a''].
      * exists []. split; [now left | reflexivity].
      * rewrite <- app_comm_cons. cbv iota. destruct (N.eqb c' LF).
        -- destruct (IH (length a'') ltac:(simpl; lia) a'' eq_refl) as (e & He & ->).
           exists e. split; [exact He | reflexivity].
        -- destruct IHa as (e & He & Ea). rewrite <- app_comm_cons in Ea. rewrite Ea.
           exists e. split; [exact He | reflexivity].
    + destruct IHa as (e & He & ->). exists e. split; [exact He | reflexivity].
  - rewrite !splitlines_char by exact E.
    destruct a' as [|c' a''].
    + exists []. split; [now left | reflexivity].
    + destruct IHa as (e & He & ->).
      destruct (splitlines (c' :: a'')) as [|l ls] eqn:El.
      * exfalso. revert El. apply splitlines_nonempty. discriminate.
      * exists e. split; [exact He | reflexivity].
Qed.

Lemma marker_lines_app_LF (a b : str) :
  marker_lines (a ++ LF :: b) = marker_lines a ++ marker_lines b.
Proof.
  unfold marker_lines. destruct (splitlines_app_LF a b) as (e & He & ->).
  rewrite !map_app, !filter_app. destruct He as [-> | ->]; reflexivity.
Qed.

Lemma marker_lines_join (pieces : list str) :
  marker_lines (join [LF] pieces) = flat_map marker_lines pieces.
Proof.
  induction pieces as [|p [|q rest] IH]; [reflexivity | |].
  - simpl. now rewrite app_nil_r.
  - change (join [LF] (p :: q :: rest)) with (p ++ LF :: join [LF] (q :: rest)).
    rewrite marker_lines_app_LF, IH. reflexivity.
Qed.

Lemma is_marker_line_has_marker (l : str) :
  is_marker_line l = true -> has_marker l = true.
Proof.
  unfold is_marker_line, has_marker. simpl. rewrite !orb_false_r.
  intro H. apply orb_true_iff in H as [H | H]; [|apply orb_true_iff in H as [H | H]];
    apply eqb_eq in H; subst l; reflexivity.
Qed.

Lemma has_marker_infix (pre s post : str) :
  has_marker s = true -> has_marker (pre ++ s ++ post) = true.
Proof.
  unfold has_marker. simpl. rewrite !orb_false_r.
  assert (C : forall m, contains m s = true -> contains m (pre ++ s ++ post) = true).
  { intros m H. unfold contains in H.
    destruct (index_of m s) as [i|] eqn:E; [|discriminate].
    apply index_of_some in E as (P & L & _).
    apply contains_true with (i := length pre + i).
    rewrite Nat.add_comm, <- skipn_skipn, skipn_prefix_app, skipn_app.
    replace (i - length s) with 0 by lia. now apply prefix_app_l. }
  intro H. apply orb_true_iff in H as [H | H]; [|apply orb_true_iff in H as [H | H]];
    apply C in H; rewrite H; rewrite ?orb_true_r; reflexivity.
Qed.

(** A text that contains no marker literal has no marker line. *)
Lemma marker_lines_free (s : str) : has_marker s = false -> marker_lines s = [].
Proof.
  intro H. unfold marker_lines.
  assert (F : forall l, In l (map strip (splitlines s)) -> is_marker_line l = false).
  { intros l Hin. apply in_map_iff in Hin as (l0 & <- & Hin).
    destruct (is_marker_line (strip l0)) eqn:M; [|reflexivity].
    apply is_marker_line_has_marker in M.
    destruct (splitlines_infix s l0 Hin) as (pre & post & Es).
    destruct (strip_infix l0) as (a & b & El).
    apply (has_marker_infix a _ b) in M. rewrite <- El in M.
    apply (has_marker_infix pre _ post) in M. rewrite <- Es in M. congruence. }
  induction (map strip (splitlines s)) as [|l ls IH]; [reflexivity|].
  simpl. rewrite (F l) by now left. apply IH. intros l' Hl. apply F. now right.
Qed.

End LinesOfText.

(** ** Counting a marker in a text made of pieces *)

Section MarkerCount.

Variable m : str.
Hypothesis m_nonempty : m <> [].
Hypothesis m_no_LF : ~ In LF m.

Lemma prefix_LF (b : str) : prefix m (LF :: b) = false.
Proof.
  destruct m as [|x m']; [contradiction|]. simpl.
  destruct (N.eqb x LF) eqn:E; [|reflexivity].
  apply N.eqb_eq in E. exfalso. apply m_no_LF. now left.
Qed.

(** An occurrence of [m] does not extend over a line feed. *)
Lemma count_app_LF (a b : str) :
  count (a ++ LF :: b) m = count a m + count b m.
Proof.
  remember (length a) as n eqn:En. revert a En.
  induction n as [n IH] using lt_wf_ind. intros a ->.
  destruct a as [|c a'].
  - simpl app. rewrite count_nomatch by apply prefix_LF.
    now rewrite count_nil.
  - pose proof (prefix_before_char LF m (c :: a') b m_no_LF) as P.
    destruct (prefix m (c :: a')) eqn:E.
    + rewrite (count_match m m_nonempty _ P), (count_match m m_nonempty _ E).
      pose proof (prefix_length _ _ E) as L.
      rewrite skipn_app. replace (length m - length (c :: a')) with 0 by lia.
      simpl skipn at 2.
      rewrite (IH (length (skipn (length m) (c :: a')))); [reflexivity | | reflexivity].
      rewrite length_skipn. destruct m; [contradiction | simpl; lia].
    + rewrite <- app_comm_cons in *.
      rewrite (count_nomatch m _ _ P), (count_nomatch m _ _ E).
      apply (IH (length a')); [simpl; lia | reflexivity].
Qed.

Lemma count_join (pieces : list str) :
  count (join [LF] pieces) m = list_sum (map (fun p => count p m) pieces).
Proof.
  induction pieces as [|p [|q rest] IH].
  - simpl. now apply count_nil.
  - simpl. lia.
  - change (join [LF] (p :: q :: rest)) with (p ++ LF :: join [LF] (q :: rest)).
    rewrite count_app_LF, IH. reflexivity.
Qed.

Lemma count_free (s : str) : contains m s = false -> count s m = 0.
Proof.
  intro H. apply count_zero_iff; [exact m_nonempty|]. now apply contains_false.
Qed.

End MarkerCount.

Section WrittenPatch.

Lemma has_marker_false (s : str) :
  has_marker s = false ->
  contains search_marker s = false /\ contains separator s = false /\
  contains replace_marker s = false.
Proof.
  unfold has_marker. simpl. rewrite orb_false_r. intro H.
  apply orb_false_iff in H as [H1 H]. apply orb_false_iff in H as [H2 H3]. auto.
Qed.

Lemma render_patch_pieces (final_newline : bool) (blocks : list block) :
  render_patch final_newline blocks = join [LF] (patch_pieces final_newline blocks).
Proof.
  unfold patch_pieces. induction blocks as [|[s r] rest IH].
  - simpl. now destruct final_newline.
  - simpl render_patch. unfold render_block. simpl fst. simpl snd.
    change (flat_map block_pieces ((s, r) :: rest) ++ (if final_newline then [[]] else []))
      with (search_marker :: s :: separator :: r :: replace_marker ::
            (flat_map block_pieces rest ++ (if final_newline then [[]] else []))).
    assert (J : forall p q qs, join [LF] (p :: q :: qs) = p ++ LF :: join [LF] (q :: qs))
      by reflexivity.
    rewrite !J.
    repeat (rewrite <- app_assoc; rewrite <- ?app_comm_cons).
    do 4 (f_equal; f_equal).
    destruct rest as [|b' rest'].
    + simpl. destruct final_newline; reflexivity.
    + rewrite IH.
      change (flat_map block_pieces (b' :: rest') ++ (if final_newline then [[]] else []))
        with (search_marker :: fst b' :: separator :: snd b' :: replace_marker ::
              (flat_map block_pieces rest' ++ (if final_newline then [[]] else []))).
      reflexivity.
Qed.

(** Each of the three literals is counted once per block. *)
Lemma count_render_patch (final_newline : bool) (blocks : list block) :
  Forall marker_free blocks ->
  count (render_patch final_newline blocks) search_marker = length blocks /\
  count (render_patch final_newline blocks) separator = length blocks /\
  count (render_patch final_newline blocks) replace_marker = length blocks.
Proof.
  intro F. rewrite render_patch_pieces.
  assert (NL : forall m, In m [search_marker; separator; replace_marker] ->
                         m <> [] /\ ~ In LF m).
  { intros m Hm. simpl in Hm. destruct Hm as [<- | [<- | [<- | []]]];
      (split; [discriminate|]); intro H; simpl in H;
        repeat (destruct H as [H | H]; [discriminate|]); exact H. }
  assert (G : forall m, In m [search_marker; separator; replace_marker] ->
                        count (join [LF] (patch_pieces final_newline blocks)) m =
                        length blocks).
  { intros m Hm. destruct (NL m Hm) as [N1 N2].
    rewrite (count_join m N1 N2). unfold patch_pieces. rewrite map_app, list_sum_app.
    replace (list_sum (map (fun p => count p m) (if final_newline then [[]] else [])))
      with 0 by (destruct final_newline; simpl; rewrite ?(count_nil m N1); reflexivity).
    rewrite Nat.add_0_r.
    induction F as [|[s r] rest [Fs Fr] F IH]; [reflexivity|].
    change (flat_map block_pieces ((s, r) :: rest))
      with ([search_marker; s; separator; r; replace_marker] ++ flat_map block_pieces rest).
    rewrite map_app, list_sum_app, IH. simpl fst in *. simpl snd in *.
    apply has_marker_false in Fs as (S1 & S2 & S3).
    apply has_marker_false in Fr as (R1 & R2 & R3).
    simpl map. simpl list_sum.
    simpl in Hm. destruct Hm as [<- | [<- | [<- | []]]];
      rewrite (count_free _ N1 s), (count_free _ N1 r) by assumption; reflexivity. }
  repeat split; apply G; simpl; auto.
Qed.

(** The markers of a written patch, line by line: one triple per block. *)
Lemma marker_lines_render_patch (final_newline : bool) (blocks : list block) :
  Forall marker_free blocks ->
  marker_lines (render_patch final_newline blocks) =
  flat_map (fun _ => [search_marker; separator; replace_marker]) blocks.
Proof.
  intro F. rewrite render_patch_pieces, marker_lines_join.
  unfold patch_pieces. rewrite flat_map_app.
  replace (flat_map marker_lines (if final_newline then [[]] else [])) with (@nil str)
    by now destruct final_newline.
  rewrite app_nil_r.
  induction F as [|[s r] rest [Fs Fr] F IH]; [reflexivity|].
  change (flat_map block_pieces ((s, r) :: rest))
    with ([search_marker; s; separator; r; replace_marker] ++ flat_map block_pieces rest).
  rewrite flat_map_app, IH. simpl fst in *. simpl snd in *.
  simpl flat_map. rewrite (marker_lines_free s Fs), (marker_lines_free r Fr).
  reflexivity.
Qed.

Lemma check_sequence_triples (blocks : list block) :
  forall i,
    check_sequence i (flat_map (fun _ => [search_marker; separator; replace_marker]) blocks)
    = Ok tt.
Proof.
  induction blocks as [|b rest IH]; intro i; [reflexivity|].
  change (check_sequence (i + 3)
            (flat_map (fun _ => [search_marker; separator; replace_marker]) rest) = Ok tt).
  apply IH.
Qed.

End WrittenPatch.

(** ** The regular expression on a written patch *)

Section RegexFacts.

Import Regex.

Lemma lazy_any_eq (k : str -> option (list str * str)) (acc text : str) :
  lazy_any k acc text =
  match k text with
  | Some (groups, rest) => Some (rev acc :: groups, rest)
  | None =>
      match text with
      | [] => None
      | c :: t => lazy_any k (c :: acc) t
      end
  end.
Proof. destruct text; reflexivity. Qed.

(** The lazy group stops at the first place where the rest of the pattern
    matches. *)
Lemma lazy_any_first (k : str -> option (list str * str))
      (a rest : str) (groups : list str) (after : str) :
  (forall i, i < length a -> k (skipn i a ++ rest) = None) ->
  k rest = Some (groups, after) ->
  forall acc, lazy_any k acc (a ++ rest) = Some ((rev acc ++ a) :: groups, after).
Proof.
  intros Hnone Hrest. induction a as [|c a IH]; intro acc.
  - simpl app. rewrite lazy_any_eq, Hrest, app_nil_r. reflexivity.
  - pose proof (Hnone 0 ltac:(simpl; lia)) as H0. cbn [skipn] in H0.
    rewrite lazy_any_eq, H0.
    rewrite <- app_comm_cons, IH.
    + simpl rev. now rewrite <- app_assoc.
    + intros i Hi. apply (Hnone (S i)). simpl. lia.
Qed.

Lemma match_here_lit (l : str) (p : list item) (text : str) :
  match_here (Lit l :: p) text =
  if prefix l text then match_here p (skipn (length l) text) else None.
Proof. reflexivity. Qed.

Lemma match_here_lazy (p : list item) (text : str) :
  match_here (LazyAny :: p) text = lazy_any (match_here p) [] text.
Proof. reflexivity. Qed.

Lemma findall_from_skip (p : list item) (k : nat) (text : str) :
  k <= length text -> findall_from k p text = findall_from 0 p (skipn k text).
Proof.
  revert k; induction text as [|c t IH]; intros [|k] Hk; simpl in *;
    try reflexivity; try lia.
  apply IH. lia.
Qed.

(** At a match the two groups are reported and the search resumes after the
    match; elsewhere it moves on by one character. *)
Lemma findall_match (p : list item) (text g1 g2 rest : str) :
  match_here p text = Some ([g1; g2], rest) ->
  length rest < length text ->
  findall p text = (g1, g2) :: findall p (skipn (length text - length rest) text).
Proof.
  intros H L. destruct text as [|c t]; [simpl in L; lia|].
  unfold findall. cbn [findall_from]. rewrite H.
  simpl length in *.
  destruct (S (length t) - length rest) as [|d] eqn:Ed; [lia|].
  replace (S d - 1) with d by lia.
  rewrite findall_from_skip by lia. reflexivity.
Qed.

Lemma findall_nomatch (p : list item) (c : char) (t : str) :
  match_here p (c :: t) = None -> findall p (c :: t) = findall p t.
Proof. intro H. unfold findall. cbn [findall_from]. now rewrite H. Qed.

Lemma prefix_app_inv (p q s : str) : prefix (p ++ q) s = true -> prefix p s = true.
Proof.
  revert s; induction p as [|x p IH]; intros s H; [reflexivity|].
  destruct s as [|y s]; [discriminate|]. simpl in *.
  apply andb_true_iff in H as [H1 H2]. rewrite H1. simpl. now apply IH.
Qed.

(** Inside a payload free of the marker [m], the marker on a line of its
    own does not start: the line feed before it would have to be followed,
    within the payload, by the marker. *)
Lemma marker_line_not_in_payload (m s rest : str) (i : nat) :
  ~ In LF m -> contains m s = false -> i < length s ->
  prefix (LF :: m) (skipn i s ++ LF :: rest) = false.
Proof.
  intros Hm Hc Hi.
  destruct (skipn i s) as [|y a] eqn:E.
  - apply (f_equal (@length char)) in E. rewrite length_skipn in E. simpl in E. lia.
  - assert (Ea : skipn (S i) s = a).
    { replace (S i) with (1 + i) by lia. now rewrite <- skipn_skipn, E. }
    rewrite <- app_comm_cons. cbn [prefix].
    rewrite prefix_before_char by exact Hm.
    rewrite <- Ea, (contains_false _ _ Hc). apply andb_false_r.
Qed.

Lemma match_block (s r tail : str) :
  has_marker s = false -> has_marker r = false ->
  match_here pattern (render_block (s, r) ++ tail) = Some ([s; r], tail).
Proof.
  intros Hs Hr.
  apply has_marker_false in Hs as (_ & Ssep & _).
  apply has_marker_false in Hr as (_ & _ & Rrep).
  assert (Nsep : ~ In LF separator).
  { intro H; simpl in H; repeat (destruct H as [H | H]; [discriminate|]); exact H. }
  assert (Nrep : ~ In LF replace_marker).
  { intro H; simpl in H; repeat (destruct H as [H | H]; [discriminate|]); exact H. }
  set (lit1 := search_marker ++ [LF]).
  set (lit2 := LF :: separator ++ [LF]).
  set (lit3 := LF :: replace_marker).
  assert (E : render_block (s, r) ++ tail = lit1 ++ s ++ lit2 ++ r ++ lit3 ++ tail).
  { unfold render_block, lit1, lit2, lit3. simpl fst. simpl snd.
    repeat (rewrite <- ?app_assoc; rewrite <- ?app_comm_cons). reflexivity. }
  rewrite E. unfold pattern. fold lit1 lit2 lit3.
  (* the closing literal after the second group *)
  assert (K3 : match_here [Lit lit3] (lit3 ++ tail) = Some ([], tail)).
  { rewrite match_here_lit, prefix_app, skipn_prefix_app. reflexivity. }
  assert (G2 : lazy_any (match_here [Lit lit3]) [] (r ++ lit3 ++ tail) = Some ([r], tail)).
  { apply (lazy_any_first (match_here [Lit lit3]) r (lit3 ++ tail) [] tail); [|exact K3].
    intros i Hi. rewrite match_here_lit.
    unfold lit3 at 1 2. rewrite <- app_comm_cons.
    now rewrite marker_line_not_in_payload. }
  (* the separator literal after the first group *)
  assert (K2 : match_here [Lit lit2; LazyAny; Lit lit3] (lit2 ++ r ++ lit3 ++ tail)
               = Some ([r], tail)).
  { rewrite match_here_lit, prefix_app, skipn_prefix_app, match_here_lazy. exact G2. }
  assert (G1 : lazy_any (match_here [Lit lit2; LazyAny; Lit lit3]) []
                        (s ++ lit2 ++ r ++ lit3 ++ tail) = Some ([s; r], tail)).
  { apply (lazy_any_first (match_here [Lit lit2; LazyAny; Lit lit3]) s
                          (lit2 ++ r ++ lit3 ++ tail) [r] tail); [|exact K2].
    intros i Hi. rewrite match_here_lit.
    destruct (prefix lit2 (skipn i s ++ lit2 ++ r ++ lit3 ++ tail)) eqn:P; [|reflexivity].
    exfalso. unfold lit2 at 1 in P.
    change (LF :: separator ++ [LF]) with ((LF :: separator) ++ [LF]) in P.
    apply prefix_app_inv in P. unfold lit2 in P. rewrite <- app_comm_cons in P.
    rewrite marker_line_not_in_payload in P by assumption. discriminate. }
  rewrite match_here_lit, prefix_app, skipn_prefix_app, match_here_lazy. exact G1.
Qed.

Lemma findall_render_patch (final_newline : bool) (blocks : list block) :
  Forall marker_free blocks ->
  findall pattern (render_patch final_newline blocks) = blocks.
Proof.
  induction 1 as [|[s r] rest [Fs Fr] F IH]; [reflexivity|].
  simpl fst in *. simpl snd in *.
  pose (tail := match rest with
                | [] => if final_newline then [LF] else []
                | _ :: _ => LF :: render_patch final_newline rest
                end).
  change (render_patch final_newline ((s, r) :: rest))
    with (render_block (s, r) ++ tail).
  assert (L : 0 < length (render_block (s, r))).
  { unfold render_block. rewrite length_app. simpl. lia. }
  rewrite (findall_match pattern _ s r tail (match_block s r tail Fs Fr))
    by (rewrite length_app; lia).
  rewrite length_app, Nat.add_sub, skipn_prefix_app. f_equal.
  unfold tail. destruct rest as [|b' rest'].
  - destruct final_newline; reflexivity.
  - rewrite findall_nomatch by reflexivity. exact IH.
Qed.

Lemma check_matches_free (blocks : list block) :
  Forall marker_free blocks -> forall i, check_matches i blocks = Ok tt.
Proof.
  induction 1 as [|[s r] rest [Fs Fr] F IH]; intro i; [reflexivity|].
  simpl in *. rewrite Fs, Fr. apply IH.
Qed.

End RegexFacts.

(** ** The claim about written patches *)

(** C1, as the claim states it, fails.  In [patch_trailing_space] the three
    markers are each a line of their own once trimmed, in order, balanced
    and not nested, validation succeeds, and neither extraction finds the
    block, the opening marker being followed by a space.  In
    [patch_no_search_line] there are two such triples, validation succeeds,
    and the structured extraction takes the text up to the second separator
    as the first search text, which the leakage guard rejects. *)
Lemma well_formed_patch_counterexample :
  (marker_lines patch_trailing_space = [search_marker; separator; replace_marker] /\
   count patch_trailing_space search_marker = 1 /\
   count patch_trailing_space separator = 1 /\
   count patch_trailing_space replace_marker = 1 /\
   validate_block_integrity patch_trailing_space = Ok tt /\
   parse_search_replace_blocks patch_trailing_space = Raise InvalidPatchFormat) /\
  (marker_lines patch_no_search_line =
   [search_marker; separator; replace_marker; search_marker; separator; replace_marker] /\
   count patch_no_search_line search_marker = 2 /\
   count patch_no_search_line separator = 2 /\
   count patch_no_search_line replace_marker = 2 /\
   validate_block_integrity patch_no_search_line = Ok tt /\
   parse_search_replace_blocks patch_no_search_line = Raise (SearchContainsMarkers 1)).
Proof. vm_compute. repeat split. Qed.

(** ** The alternative parsing *)

Section Fallback.

Lemma skipn_nth (lines : list str) (i : nat) :
  i < length lines -> skipn i lines = nth i lines [] :: skipn (S i) lines.
Proof.
  revert i; induction lines as [|l lines IH]; intros i Hi; [simpl in Hi; lia|].
  destruct i as [|i]; [reflexivity|]. simpl in *. apply IH. lia.
Qed.

Lemma break_at_length (target : str) (lines before after : list str) :
  break_at target lines = Some (before, after) ->
  length lines = S (length before + length after).
Proof.
  revert before; induction lines as [|l lines IH]; intros before H; [discriminate|].
  simpl in H. destruct (PyStr.eqb l target).
  - injection H as <- <-. reflexivity.
  - destruct (break_at target lines) as [[b a]|]; [|discriminate].
    injection H as <- <-. simpl. now rewrite (IH b eq_refl).
Qed.

(** The [for ... break] loop finds the line that [break_at] breaks at. *)
Lemma first_line_eq_seq (lines : list str) (target : str) (n : nat) :
  forall a, a + n = length lines ->
  match break_at target (skipn a lines) with
  | None => first_line_eq lines target (seq a n) = (-1)%Z
  | Some (before, after) =>
      first_line_eq lines target (seq a n) = Z.of_nat (a + length before) /\
      firstn (length before) (skipn a lines) = before /\
      skipn (S (a + length before)) lines = after
  end.
Proof.
  induction n as [|n IH]; intros a Ha.
  - rewrite skipn_all2 by lia. reflexivity.
  - rewrite (skipn_nth lines a) by lia. cbn [seq first_line_eq break_at].
    destruct (PyStr.eqb (nth a lines []) target).
    + rewrite Nat.add_0_r. auto.
    + specialize (IH (S a) ltac:(lia)).
      destruct (break_at target (skipn (S a) lines)) as [[before after]|]; [|exact IH].
      destruct IH as (I1 & I2 & I3). simpl length.
      replace (a + S (length before)) with (S a + length before) by lia.
      repeat split; [exact I1 | | exact I3].
      cbn [firstn]. now rewrite I2.
Qed.

Lemma first_line_eq_break (lines : list str) (target : str) (a : nat) :
  a <= length lines ->
  match break_at target (skipn a lines) with
  | None => first_line_eq lines target (range a (length lines)) = (-1)%Z
  | Some (before, after) =>
      first_line_eq lines target (range a (length lines)) = Z.of_nat (a + length before) /\
      slice lines a (a + length before) = before /\
      skipn (S (a + length before)) lines = after
  end.
Proof.
  intro Ha. unfold range, slice.
  pose proof (first_line_eq_seq lines target (length lines - a) a ltac:(lia)) as H.
  destruct (break_at target (skipn a lines)) as [[before after]|]; [|exact H].
  now replace (a + length before - a) with (length before) by lia.
Qed.

(** The scan in the search part and in the replace part of a block runs up
    to the next separator line and the next closing line. *)
Lemma scan_in_search (guard : bool) (n : nat) (lines : list str) :
  forall acc,
  scan_lines guard (InSearch acc) n lines =
  match break_at separator lines with
  | None => Raise MissingSeparator
  | Some (before, after) => scan_lines guard (InReplace (rev acc ++ before) []) n after
  end.
Proof.
  induction lines as [|l lines IH]; intro acc; [reflexivity|].
  cbn [scan_lines break_at]. destruct (PyStr.eqb l separator).
  - now rewrite app_nil_r.
  - rewrite IH. destruct (break_at separator lines) as [[before after]|]; [|reflexivity].
    simpl rev. now rewrite <- app_assoc.
Qed.

Lemma scan_in_replace (guard : bool) (n : nat) (search_lines lines : list str) :
  forall acc,
  scan_lines guard (InReplace search_lines acc) n lines =
  match break_at replace_marker lines with
  | None => Raise MissingReplaceMarker
  | Some (before, after) =>
      let search_text := join [LF] search_lines in
      let replace_text := join [LF] (rev acc ++ before) in
      if guard && has_marker search_text then Raise (SearchContainsMarkers (n + 1))
      else if guard && has_marker replace_text
           then Raise (ReplaceContainsMarkers (n + 1))
           else blocks <- scan_lines guard Outside (S n) after ;;
                Ok ((search_text, replace_text) :: blocks)
  end.
Proof.
  induction lines as [|l lines IH]; intro acc; [reflexivity|].
  cbn [scan_lines break_at]. destruct (PyStr.eqb l replace_marker).
  - now rewrite app_nil_r.
  - rewrite IH. destruct (break_at replace_marker lines) as [[before after]|]; [|reflexivity].
    simpl rev. now rewrite <- app_assoc.
Qed.

(** The loop over the indices, started at line [i] with the blocks taken so
    far, is the scan of the lines from [i] on; it ends within the fuel. *)
Lemma fallback_loop_scan (lines : list str) (fuel : nat) :
  forall (i : nat) (blocks : list block),
    length lines - i < fuel ->
    fallback_loop fuel lines i blocks =
    Some (match scan_lines true Outside (length blocks) (skipn i lines) with
          | Ok more => Ok (blocks ++ more)
          | Raise e => Raise e
          end).
Proof.
  induction fuel as [|fuel IH]; intros i blocks Hfuel; [lia|].
  cbn [fallback_loop]. destruct (i <? length lines) eqn:Ei.
  2:{ apply Nat.ltb_ge in Ei. rewrite skipn_all2 by exact Ei.
      simpl. now rewrite app_nil_r. }
  apply Nat.ltb_lt in Ei. rewrite (skipn_nth lines i Ei). cbn [scan_lines].
  destruct (PyStr.eqb (nth i lines []) search_marker).
  2:{ replace (i + 1) with (S i) by lia. apply IH. lia. }
  rewrite scan_in_search. simpl rev. simpl app.
  replace (S i) with (i + 1) by lia.
  pose proof (first_line_eq_break lines separator (i + 1) ltac:(lia)) as Hsep.
  destruct (break_at separator (skipn (i + 1) lines)) as [[before after]|] eqn:Bsep.
  2:{ rewrite Hsep. reflexivity. }
  destruct Hsep as (-> & Hslice & Hafter).
  replace (Z.of_nat (i + 1 + length before) =? -1)%Z with false
    by (symmetry; apply Z.eqb_neq; lia).
  replace (Z.to_nat (Z.of_nat (i + 1 + length before) + 1))
    with (S (i + 1 + length before)) by lia.
  rewrite Nat2Z.id, Hslice, scan_in_replace. simpl rev. simpl app.
  pose proof (first_line_eq_break lines replace_marker (S (i + 1 + length before))) as Hrep.
  rewrite Hafter in Hrep.
  assert (Hle : S (i + 1 + length before) <= length lines).
  { apply break_at_length in Bsep. rewrite length_skipn in Bsep. lia. }
  specialize (Hrep Hle).
  destruct (break_at replace_marker after) as [[before2 after2]|].
  2:{ rewrite Hrep. reflexivity. }
  destruct Hrep as (-> & Hslice2 & Hafter2).
  replace (Z.of_nat (S (i + 1 + length before) + length before2) =? -1)%Z with false
    by (symmetry; apply Z.eqb_neq; lia).
  rewrite Nat2Z.id, Hslice2. cbv zeta. simpl andb.
  destruct (has_marker (join [LF] before)); [reflexivity|].
  destruct (has_marker (join [LF] before2)); [reflexivity|].
  rewrite IH.
  - replace (Z.to_nat (Z.of_nat (S (i + 1 + length before) + length before2) + 1))
      with (S (S (i + 1 + length before) + length before2)) by lia.
    rewrite Hafter2, length_app. simpl length.
    replace (length blocks + 1) with (S (length blocks)) by lia.
    destruct (scan_lines true Outside (S (length blocks)) after2) as [more|e];
      [|reflexivity].
    simpl bind. now rewrite <- app_assoc.
  - lia.
Qed.

(** The loop returns: it never uses up the fuel it is given. *)
Lemma fallback_loop_terminates (lines : list str) :
  exists r, fallback_loop (S (length lines)) lines 0 [] = Some r.
Proof. rewrite fallback_loop_scan by lia. eauto. Qed.

Lemma fallback_parse_scan (patch_content : str) :
  fallback_parse patch_content = scan_result true patch_content.
Proof.
  unfold fallback_parse, scan_result. rewrite fallback_loop_scan by lia.
  simpl length. simpl skipn. simpl app.
  destruct (scan_lines true Outside 0 (splitlines patch_content)) as [[|b bs]|e];
    reflexivity.
Qed.

End Fallback.

(** C8, as the claim states it, fails.  In [patch_crlf_leak] validation
    succeeds and the structured extraction finds nothing; the opening line
    is followed by a separator line and that one by a closing line, so the
    scan of the claim takes the lines between them as the block; the parser
    rejects the block, its search text containing marker literals. *)
Lemma fallback_scan_counterexample :
  validate_block_integrity patch_crlf_leak = Ok tt /\
  Regex.findall pattern patch_crlf_leak = [] /\
  splitlines patch_crlf_leak =
  [search_marker; leaking_line; separator; lit "b"; replace_marker] /\
  scan_result false patch_crlf_leak = Ok [(leaking_line, lit "b")] /\
  parse_search_replace_blocks patch_crlf_leak = Raise (SearchContainsMarkers 1).
Proof. vm_compute. repeat split. Qed.

(** C8, amended: when validation has succeeded and the structured extraction
    has found no block, the parser returns what the line-by-line scan gives:
    for each line equal to the opening marker, a missing-separator error if
    no separator line follows, a missing-replace-marker error if no closing
    line follows the separator, a marker-leakage error naming the block if
    the search or the replace payload contains a marker literal, and
    otherwise the block made of the lines strictly between the markers,
    joined with line feeds, the scan resuming after the closing line; the
    generic invalid-format error if no block is found. *)
Theorem fallback_is_line_scan (patch_content : str) :
  validate_block_integrity patch_content = Ok tt ->
  Regex.findall pattern patch_content = [] ->
  parse_search_replace_blocks patch_content = scan_result true patch_content /\
  exists r, fallback_loop (S (length (splitlines patch_content)))
                          (splitlines patch_content) 0 [] = Some r.
Proof.
  intros V F. split.
  - unfold parse_search_replace_blocks. rewrite V, F. simpl bind.
    apply fallback_parse_scan.
  - apply fallback_loop_terminates.
Qed.

Lemma fallback_is_line_scan_witness :
  parse_search_replace_blocks patch_crlf = scan_result true patch_crlf /\
  exists r, fallback_loop (S (length (splitlines patch_crlf)))
                          (splitlines patch_crlf) 0 [] = Some r.
Proof.
  apply (fallback_is_line_scan patch_crlf); vm_compute; reflexivity.
Defined.

(** ** Further properties of the applier *)

Section ApplierProperties.

(** Replacing a text by itself changes nothing. *)
Lemma replace_same (sub s : str) : replace s sub sub = s.
Proof.
  destruct sub as [|x sub'].
  - unfold replace. induction s as [|c t IH]; [reflexivity|].
    simpl. now rewrite IH.
  - set (sub := x :: sub'). assert (Hne : sub <> []) by discriminate.
    remember (length s) as n eqn:En. revert s En.
    induction n as [n IH] using lt_wf_ind. intros s ->.
    destruct s as [|c t]; [now apply replace_nil|].
    destruct (prefix sub (c :: t)) eqn:E.
    + rewrite (replace_match sub Hne) by exact E.
      rewrite (IH (length (skipn (length sub) (c :: t)))); [| | reflexivity].
      * symmetry. now apply prefix_split.
      * rewrite length_skipn. simpl. lia.
    + rewrite (replace_nomatch sub) by exact E. f_equal.
      apply (IH (length t)); [simpl; lia | reflexivity].
Qed.

Lemma apply_loop_error (blocks : list block) :
  forall (i : nat) (current : str) (n : nat) (e : error),
    apply_loop i blocks current n = Raise e ->
    exists done search_text replace_text rest current' n',
      blocks = done ++ (search_text, replace_text) :: rest /\
      apply_loop i done current n = Ok (current', n') /\
      ((count current' search_text = 0 /\
        e = SearchNotFound (i + length done + 1)) \/
       (1 < count current' search_text /\
        e = AmbiguousMatch (i + length done + 1) (count current' search_text))).
Proof.
  induction blocks as [|[s r] blocks IH]; intros i current n e H; [discriminate|].
  rewrite apply_loop_step in H.
  destruct (count current s =? 1) eqn:E1.
  - apply IH in H as (done & s' & r' & rest & current' & n' & -> & Hd & He).
    exists ((s, r) :: done), s', r', rest, current', n'. split; [reflexivity|]. split.
    + rewrite apply_loop_step, E1. exact Hd.
    + simpl length. now replace (i + S (length done) + 1) with (S i + length done + 1) by lia.
  - apply Nat.eqb_neq in E1.
    exists [], s, r, blocks, current, n. split; [reflexivity|]. split; [reflexivity|].
    simpl length. rewrite Nat.add_0_r.
    destruct (1 <? count current s) eqn:E2.
    + apply Nat.ltb_lt in E2. injection H as <-. now right.
    + apply Nat.ltb_ge in E2. injection H as <-. left. split; [lia | reflexivity].
Qed.

Lemma apply_loop_noop (blocks : list block) :
  Forall (fun b => fst b = snd b) blocks ->
  forall (i : nat) (current final : str) (n m : nat),
    apply_loop i blocks current n = Ok (final, m) -> final = current.
Proof.
  induction 1 as [|[s r] blocks Hb F IH]; intros i current final n m H.
  - simpl in H. now injection H as <- _.
  - simpl in Hb. subst r. rewrite apply_loop_step in H.
    destruct (count current s =? 1).
    + apply IH in H. now rewrite replace_same in H.
    + destruct (1 <? count current s); discriminate.
Qed.

Lemma apply_loop_length (blocks : list block) :
  forall (i : nat) (current final : str) (n m : nat),
    apply_loop i blocks current n = Ok (final, m) ->
    length final + search_length blocks = length current + replace_length blocks.
Proof.
  unfold search_length, replace_length.
  induction blocks as [|[s r] blocks IH]; intros i current final n m H.
  - simpl in H. injection H as <- _. reflexivity.
  - rewrite apply_loop_step in H.
    destruct (count current s =? 1) eqn:E1.
    + apply Nat.eqb_eq in E1. apply IH in H.
      destruct (replace_one current s r E1) as (pre & post & Ec & Er).
      rewrite Er in H. rewrite Ec. simpl map. simpl list_sum.
      rewrite !length_app in *. lia.
    + destruct (1 <? count current s); discriminate.
Qed.

End ApplierProperties.

(** X1: when the applier fails, it fails at the first block whose search
    text is not counted exactly once in the document made by the blocks
    before it: those blocks have all applied, and the error names the
    1-based index of the failing block, not found for no occurrence and
    ambiguous, with the count, for several. *)
Theorem apply_fails_at_first_bad_block
        (document : str) (blocks : list block) (e : error) :
  apply_blocks document blocks = Raise e ->
  exists done search_text replace_text rest current,
    blocks = done ++ (search_text, replace_text) :: rest /\
    apply_blocks document done = Ok (current, length done) /\
    ((count current search_text = 0 /\ e = SearchNotFound (length done + 1)) \/
     (1 < count current search_text /\
      e = AmbiguousMatch (length done + 1) (count current search_text))).
Proof.
  intro H. unfold apply_blocks in *.
  apply apply_loop_error in H as (done & s & r & rest & current & n & -> & Hd & He).
  exists done, s, r, rest, current. split; [reflexivity|].
  pose proof (apply_loop_applied _ _ _ _ _ _ Hd) as Hn. simpl in Hn. subst n.
  split; [exact Hd | exact He].
Qed.

Lemma apply_fails_at_first_bad_block_witness :
  exists done search_text replace_text rest current,
    [(lit "foo", lit "foobar"); (lit "o", lit "x")] =
    done ++ (search_text, replace_text) :: rest /\
    apply_blocks doc_foo done = Ok (current, length done) /\
    ((count current search_text = 0 /\
      AmbiguousMatch 2 2 = SearchNotFound (length done + 1)) \/
     (1 < count current search_text /\
      AmbiguousMatch 2 2 =
      AmbiguousMatch (length done + 1) (count current search_text))).
Proof.
  apply (apply_fails_at_first_bad_block
           doc_foo [(lit "foo", lit "foobar"); (lit "o", lit "x")]).
  reflexivity.
Defined.

(** X2: blocks whose replace text is their search text leave the document
    as it is: when such a sequence applies, the final document is the
    original one and every block is counted as applied. *)
Theorem noop_blocks_keep_document
        (document final : str) (blocks : list block) (applied : nat) :
  Forall (fun b => fst b = snd b) blocks ->
  apply_blocks document blocks = Ok (final, applied) ->
  final = document /\ applied = length blocks.
Proof.
  intros F H. unfold apply_blocks in H. split.
  - now apply (apply_loop_noop blocks F 0 document final 0 applied).
  - now apply apply_loop_applied in H.
Qed.

Lemma noop_blocks_keep_document_witness :
  doc_foo = doc_foo /\ 2 = length [(lit "f", lit "f"); (lit "oo", lit "oo")].
Proof.
  apply (noop_blocks_keep_document
           doc_foo doc_foo [(lit "f", lit "f"); (lit "oo", lit "oo")] 2).
  - repeat constructor.
  - reflexivity.
Defined.

(** X3: a successful application changes the length of the document by the
    lengths of the replace texts put in less those of the search texts taken
    out. *)
Theorem apply_length_balance
        (document final : str) (blocks : list block) (applied : nat) :
  apply_blocks document blocks = Ok (final, applied) ->
  length final + search_length blocks = length document + replace_length blocks.
Proof.
  intro H. unfold apply_blocks in H.
  now apply (apply_loop_length blocks 0 document final 0 applied).
Qed.

Lemma apply_length_balance_witness :
  length (lit "baz") +
  search_length [(lit "foo", lit "foobar"); (lit "foobar", lit "baz")] =
  length doc_foo +
  replace_length [(lit "foo", lit "foobar"); (lit "foobar", lit "baz")].
Proof.
  apply (apply_length_balance
           doc_foo (lit "baz")
           [(lit "foo", lit "foobar"); (lit "foobar", lit "baz")] 2).
  reflexivity.
Defined.

(** X4: after a successful application the replace text of the last block
    is in the final document, and what stood before and after the one
    occurrence of its search text is kept around it. *)
Theorem last_block_is_visible
        (document final search_text replace_text : str)
        (done : list block) (applied : nat) :
  apply_blocks document (done ++ [(search_text, replace_text)]) = Ok (final, applied) ->
  contains replace_text final = true /\
  exists current pre post,
    apply_blocks document done = Ok (current, length done) /\
    current = pre ++ search_text ++ post /\
    final = pre ++ replace_text ++ post.
Proof.
  unfold apply_blocks. rewrite apply_loop_app.
  destruct (apply_loop 0 done document 0) as [[current n]|e] eqn:Hd; [|discriminate].
  pose proof (apply_loop_applied _ _ _ _ _ _ Hd) as Hn. simpl in Hn. subst n.
  rewrite apply_loop_step.
  destruct (count current search_text =? 1) eqn:E1.
  - apply Nat.eqb_eq in E1. simpl. intro H. injection H as <- _.
    destruct (replace_one current search_text replace_text E1) as (pre & post & Ec & Er).
    rewrite Er. split; [apply (contains_app replace_text pre [] post)|].
    exists current, pre, post. auto.
  - destruct (1 <? count current search_text); discriminate.
Qed.

Lemma last_block_is_visible_witness :
  contains (lit "baz") (lit "baz") = true /\
  exists current pre post,
    apply_blocks doc_foo [(lit "foo", lit "foobar")] =
    Ok (current, length [(lit "foo", lit "foobar")]) /\
    current = pre ++ lit "foobar" ++ post /\
    lit "baz" = pre ++ lit "baz" ++ post.
Proof.
  apply (last_block_is_visible
           doc_foo (lit "baz") (lit "foobar") (lit "baz")
           [(lit "foo", lit "foobar")] 2).
  reflexivity.
Defined.

(** ** The three scans of the text agree *)

Section ScansAgree.

Variable sep : str.
Hypothesis sep_nonempty : sep <> [].

Lemma split_from_nonempty (k : nat) (cur s : str) : split_from k sep cur s <> [].
Proof.
  revert k cur; induction s as [|c t IH]; intros k cur; simpl; [discriminate|].
  destruct k; [|apply IH]. destruct (prefix sep (c :: t)); [discriminate | apply IH].
Qed.

Lemma join_cons (new p : str) (rest : list str) :
  rest <> [] -> join new (p :: rest) = p ++ new ++ join new rest.
Proof. destruct rest; [contradiction | reflexivity]. Qed.

Lemma split_from_scan (new : str) (s : str) :
  forall cur,
    length (split_from 0 sep cur s) = S (count_from 0 sep s) /\
    join new (split_from 0 sep cur s) = rev cur ++ replace_from 0 sep new s.
Proof.
  remember (length s) as n eqn:En. revert s En.
  induction n as [n IH] using lt_wf_ind. intros s -> cur.
  destruct s as [|c t].
  - simpl. destruct sep; [contradiction|]. simpl. now rewrite app_nil_r.
  - cbn [split_from count_from replace_from].
    destruct (prefix sep (c :: t)) eqn:P.
    + destruct (prefix_nonempty sep sep_nonempty _ P) as (c' & t' & E & L & _).
      injection E as <- <-.
      rewrite split_from_skip, count_from_skip, replace_from_skip by exact L.
      destruct (IH (length (skipn (length sep - 1) t))
                   ltac:(rewrite length_skipn; simpl; lia)
                   (skipn (length sep - 1) t) eq_refl []) as [I1 I2].
      split.
      * simpl length. now rewrite I1.
      * rewrite join_cons by apply split_from_nonempty.
        rewrite I2. simpl rev. simpl app.
        destruct sep; [contradiction | reflexivity].
    + destruct (IH (length t) ltac:(simpl; lia) t eq_refl (c :: cur)) as [I1 I2].
      split; [exact I1|]. rewrite I2. simpl rev. now rewrite <- app_assoc.
Qed.

Lemma index_of_contains (sub s : str) :
  contains sub s = true <-> exists i, prefix sub (skipn i s) = true.
Proof.
  split.
  - unfold contains. destruct (index_of sub s) as [i|] eqn:E; [|discriminate].
    intros _. exists i. now apply index_of_some in E as (P & _).
  - intros [i P]. now apply contains_true with (i := i).
Qed.

Lemma count_zero_contains (s : str) : count s sep = 0 <-> contains sep s = false.
Proof.
  rewrite (count_zero_iff sep sep_nonempty). split.
  - intro H. destruct (contains sep s) eqn:C; [|reflexivity].
    apply index_of_contains in C as [i P]. rewrite H in P. discriminate.
  - apply contains_false.
Qed.

End ScansAgree.

(** X5: [split], [count] and [replace] see the same occurrences of a
    non-empty text: splitting gives one segment more than there are counted
    occurrences, joining the segments with the text splits restores the
    string, and joining them with another text is replacing. *)
Theorem split_count_replace_agree (s sep : str) :
  sep <> [] ->
  length (split s sep) = count s sep + 1 /\
  join sep (split s sep) = s /\
  forall new, join new (split s sep) = replace s sep new.
Proof.
  intro Hne. unfold split, count, replace. repeat split.
  - destruct (split_from_scan sep Hne [] s []) as [H _]. rewrite H. lia.
  - destruct (split_from_scan sep Hne sep s []) as [_ H]. rewrite H. simpl.
    apply replace_same.
  - intro new. now destruct (split_from_scan sep Hne new s []) as [_ H].
Qed.

Lemma split_count_replace_agree_witness :
  length (split doc_a_b_a (lit "a")) = count doc_a_b_a (lit "a") + 1 /\
  join (lit "a") (split doc_a_b_a (lit "a")) = doc_a_b_a /\
  forall new, join new (split doc_a_b_a (lit "a")) = replace doc_a_b_a (lit "a") new.
Proof.
  apply (split_count_replace_agree doc_a_b_a (lit "a")). discriminate.
Defined.

(** X6: the leakage guard and the balance check agree on what an
    occurrence of a marker is: a text passes the guard exactly when each of
    the three marker literals is counted zero times in it. *)
Theorem leak_guard_is_zero_count (text : str) :
  has_marker text = false <->
  count text search_marker = 0 /\ count text separator = 0 /\
  count text replace_marker = 0.
Proof.
  rewrite (count_zero_contains search_marker ltac:(discriminate)).
  rewrite (count_zero_contains separator ltac:(discriminate)).
  rewrite (count_zero_contains replace_marker ltac:(discriminate)).
  split; [apply has_marker_false|].
  intros (H1 & H2 & H3). unfold has_marker. simpl. now rewrite H1, H2, H3.
Qed.

(** ** Further properties of the validator *)

Section SequenceCheck.

Lemma marker_triples_succ (n : nat) :
  marker_triples (S n) = search_marker :: separator :: replace_marker :: marker_triples n.
Proof. reflexivity. Qed.

Lemma check_sequence_step (i : nat) (m0 m1 m2 : str) (rest : list str) :
  check_sequence i (m0 :: m1 :: m2 :: rest) =
  if negb (PyStr.eqb m0 search_marker) || negb (PyStr.eqb m1 separator)
     || negb (PyStr.eqb m2 replace_marker)
  then Raise (IncorrectSequence i [m0; m1; m2])
  else check_sequence (i + 3) rest.
Proof. reflexivity. Qed.

Lemma group_is_triple (m0 m1 m2 : str) :
  negb (PyStr.eqb m0 search_marker) || negb (PyStr.eqb m1 separator)
  || negb (PyStr.eqb m2 replace_marker) = false <->
  [m0; m1; m2] = marker_triple.
Proof.
  unfold marker_triple. split.
  - intro H. apply orb_false_iff in H as [H H2]. apply orb_false_iff in H as [H0 H1].
    apply negb_false_iff, eqb_eq in H0, H1, H2. now subst.
  - intro H. injection H as -> -> ->. now rewrite !eqb_refl.
Qed.

(** The sequence check passes on complete groups that are the expected
    triple, followed by fewer than three markers that it does not look at. *)
Lemma check_sequence_ok (markers : list str) :
  forall i,
    check_sequence i markers = Ok tt <->
    exists n tail, markers = marker_triples n ++ tail /\ length tail < 3.
Proof.
  remember (length markers) as len eqn:En. revert markers En.
  induction len as [len IH] using lt_wf_ind. intros markers -> i.
  destruct markers as [|m0 [|m1 [|m2 rest]]].
  1-3: split; [intros _; exists 0; eexists; split; [reflexivity | simpl; lia]
              | reflexivity].
  rewrite check_sequence_step.
  destruct (negb (PyStr.eqb m0 search_marker) || negb (PyStr.eqb m1 separator)
            || negb (PyStr.eqb m2 replace_marker)) eqn:G.
  - split; [discriminate|]. intros (n & tail & E & L). exfalso.
    destruct n as [|n].
    + simpl in E. subst tail. simpl in L. lia.
    + rewrite marker_triples_succ in E. simpl in E. injection E as -> -> -> _.
      rewrite !eqb_refl in G. discriminate.
  - apply group_is_triple in G. injection G as -> -> ->.
    rewrite (IH (length rest) ltac:(simpl; lia) rest eq_refl (i + 3)). split.
    + intros (n & tail & -> & L). exists (S n), tail. split; [reflexivity | exact L].
    + intros (n & tail & E & L). destruct n as [|n].
      * simpl in E. subst tail. simpl in L. lia.
      * rewrite marker_triples_succ in E. simpl in E. injection E as ->.
        now exists n, tail.
Qed.

(** The error of the sequence check is about the first complete group that
    is not the expected triple. *)
Lemma check_sequence_error (markers : list str) :
  forall i e,
    check_sequence i markers = Raise e ->
    exists k got rest,
      e = IncorrectSequence (i + 3 * k) got /\
      markers = marker_triples k ++ got ++ rest /\
      length got = 3 /\ got <> marker_triple.
Proof.
  remember (length markers) as len eqn:En. revert markers En.
  induction len as [len IH] using lt_wf_ind. intros markers -> i e H.
  destruct markers as [|m0 [|m1 [|m2 rest]]]; try discriminate.
  rewrite check_sequence_step in H.
  destruct (negb (PyStr.eqb m0 search_marker) || negb (PyStr.eqb m1 separator)
            || negb (PyStr.eqb m2 replace_marker)) eqn:G.
  - injection H as <-. exists 0, [m0; m1; m2], rest.
    rewrite Nat.mul_0_r, Nat.add_0_r. repeat split.
    intro E. apply group_is_triple in E. congruence.
  - apply group_is_triple in G. injection G as -> -> ->.
    destruct (IH (length rest) ltac:(simpl; lia) rest eq_refl (i + 3) e H)
      as (k & got & rest' & -> & -> & L & Hne).
    exists (S k), got, rest'. repeat split; try assumption.
    f_equal. lia.
Qed.

End SequenceCheck.

Lemma validation_succeeds_by_triples (patch_content : str) (n : nat) :
  count patch_content search_marker = count patch_content separator /\
  count patch_content separator = count patch_content replace_marker ->
  marker_lines patch_content = marker_triples n ->
  validate_block_integrity patch_content = Ok tt.
Proof.
  intros [E1 E2] M. unfold validate_block_integrity.
  rewrite E1, E2, !Nat.eqb_refl. simpl negb. cbv iota.
  rewrite check_nested_split.
  replace (check_sequence 0 (marker_lines patch_content)) with (@Ok unit tt);
    [reflexivity|].
  symmetry. apply check_sequence_ok. exists n, []. rewrite app_nil_r.
  split; [exact M | simpl; lia].
Qed.

(** X7: validation succeeds exactly when the three marker literals are
    counted equally often in the text and the trimmed marker lines are, in
    order, complete SEARCH/separator/REPLACE groups, followed by at most two
    more marker lines, which are not looked at. *)
Theorem validation_succeeds_iff (patch_content : str) :
  validate_block_integrity patch_content = Ok tt <->
  (count patch_content search_marker = count patch_content separator /\
   count patch_content separator = count patch_content replace_marker) /\
  exists n tail,
    marker_lines patch_content = marker_triples n ++ tail /\ length tail < 3.
Proof.
  unfold validate_block_integrity. rewrite check_nested_split.
  rewrite <- (check_sequence_ok (marker_lines patch_content) 0).
  destruct ((count patch_content search_marker =? count patch_content separator)
            && (count patch_content separator =? count patch_content replace_marker))
           eqn:E; simpl negb; cbv iota.
  - apply andb_true_iff in E as [E1 E2]. apply Nat.eqb_eq in E1, E2.
    destruct (check_sequence 0 (marker_lines patch_content)) as [[]|e]; simpl.
    + tauto.
    + split; [discriminate | intros [_ H]; discriminate].
  - split; [discriminate|]. intros [[E1 E2] _].
    rewrite E1, E2, !Nat.eqb_refl in E. discriminate.
Qed.

(** X8: when validation fails, it is with the unbalanced-markers error,
    which reports the three counts, these being not all equal, or, the
    counts being equal, with the sequence error, which reports the position,
    a multiple of three, of the first complete group of marker lines that is
    not the expected triple, and that group. *)
Theorem validation_errors (patch_content : str) (e : error) :
  validate_block_integrity patch_content = Raise e ->
  (e = UnbalancedMarkers (count patch_content search_marker)
                         (count patch_content separator)
                         (count patch_content replace_marker) /\
   ~ (count patch_content search_marker = count patch_content separator /\
      count patch_content separator = count patch_content replace_marker)) \/
  ((count patch_content search_marker = count patch_content separator /\
    count patch_content separator = count patch_content replace_marker) /\
   exists k got rest,
     e = IncorrectSequence (3 * k) got /\
     marker_lines patch_content = marker_triples k ++ got ++ rest /\
     length got = 3 /\ got <> marker_triple).
Proof.
  unfold validate_block_integrity. rewrite check_nested_split.
  destruct ((count patch_content search_marker =? count patch_content separator)
            && (count patch_content separator =? count patch_content replace_marker))
           eqn:E; simpl negb; cbv iota.
  - apply andb_true_iff in E as [E1 E2]. apply Nat.eqb_eq in E1, E2.
    destruct (check_sequence 0 (marker_lines patch_content)) as [[]|e'] eqn:Es;
      simpl; [discriminate|].
    intro H. injection H as <-. right. split; [auto|].
    apply check_sequence_error in Es as (k & got & rest & -> & Hm & L & Hne).
    now exists k, got, rest.
  - intro H. injection H as <-. left. split; [reflexivity|].
    intros [E1 E2]. rewrite E1, E2, !Nat.eqb_refl in E. discriminate.
Qed.

Lemma validation_errors_witness :
  (UnbalancedMarkers 1 0 0 =
   UnbalancedMarkers (count patch_glued_marker search_marker)
                     (count patch_glued_marker separator)
                     (count patch_glued_marker replace_marker) /\
   ~ (count patch_glued_marker search_marker = count patch_glued_marker separator /\
      count patch_glued_marker separator = count patch_glued_marker replace_marker)) \/
  ((count patch_glued_marker search_marker = count patch_glued_marker separator /\
    count patch_glued_marker separator = count patch_glued_marker replace_marker) /\
   exists k got rest,
     UnbalancedMarkers 1 0 0 = IncorrectSequence (3 * k) got /\
     marker_lines patch_glued_marker = marker_triples k ++ got ++ rest /\
     length got = 3 /\ got <> marker_triple).
Proof.
  apply (validation_errors patch_glued_marker (UnbalancedMarkers 1 0 0)).
  reflexivity.
Defined.

Lemma validation_succeeds_iff_witness :
  (count patch_foo search_marker = count patch_foo separator /\
   count patch_foo separator = count patch_foo replace_marker) /\
  exists n tail, marker_lines patch_foo = marker_triples n ++ tail /\ length tail < 3.
Proof.
  apply (proj1 (validation_succeeds_iff patch_foo)). reflexivity.
Defined.

Lemma leak_guard_is_zero_count_witness :
  count doc_foo search_marker = 0 /\ count doc_foo separator = 0 /\
  count doc_foo replace_marker = 0.
Proof.
  apply (proj1 (leak_guard_is_zero_count doc_foo)). reflexivity.
Defined.

(** ** Further properties of the parser *)

Section ParserProperties.

Lemma check_matches_ok (matches : list block) :
  forall i, check_matches i matches = Ok tt -> Forall marker_free matches.
Proof.
  induction matches as [|[s r] rest IH]; intros i H; [constructor|].
  simpl in H. destruct (has_marker s) eqn:Hs; [discriminate|].
  destruct (has_marker r) eqn:Hr; [discriminate|].
  constructor; [split; assumption | now apply (IH (S i))].
Qed.

Lemma check_matches_error (matches : list block) :
  forall i e, check_matches i matches = Raise e ->
              exists k, i < k <= i + length matches /\
                        (e = SearchContainsMarkers k \/ e = ReplaceContainsMarkers k).
Proof.
  induction matches as [|[s r] rest IH]; intros i e H; [discriminate|].
  simpl in H. destruct (has_marker s).
  { injection H as <-. exists (i + 1). simpl. split; [lia | now left]. }
  destruct (has_marker r).
  { injection H as <-. exists (i + 1). simpl. split; [lia | now right]. }
  apply IH in H as (k & Hk & He). exists k. simpl. split; [lia | exact He].
Qed.

(** With the guard, the scan takes only blocks free of marker literals, and
    its errors are those of a missing marker line or of the guard. *)
Lemma scan_lines_ok (lines : list str) :
  forall st n blocks,
    scan_lines true st n lines = Ok blocks -> Forall marker_free blocks.
Proof.
  induction lines as [|l lines IH]; intros st n blocks H.
  - destruct st; try discriminate. injection H as <-. constructor.
  - destruct st as [|acc|search_lines acc]; cbn [scan_lines] in H.
    + destruct (PyStr.eqb l search_marker); eapply IH; exact H.
    + destruct (PyStr.eqb l separator); eapply IH; exact H.
    + destruct (PyStr.eqb l replace_marker); [|eapply IH; exact H].
      cbv zeta in H. simpl andb in H.
      destruct (has_marker (join [LF] search_lines)) eqn:Hs; [discriminate|].
      destruct (has_marker (join [LF] (rev acc))) eqn:Hr; [discriminate|].
      destruct (scan_lines true Outside (S n) lines) as [more|e] eqn:Hm; [|discriminate].
      simpl in H. injection H as <-.
      constructor; [split; assumption | eapply IH; exact Hm].
Qed.

Lemma scan_lines_error (lines : list str) :
  forall st n e,
    scan_lines true st n lines = Raise e ->
    e = MissingSeparator \/ e = MissingReplaceMarker \/
    exists k, n < k /\ (e = SearchContainsMarkers k \/ e = ReplaceContainsMarkers k).
Proof.
  induction lines as [|l lines IH]; intros st n e H.
  - destruct st; try discriminate; injection H as <-; auto.
  - destruct st as [|acc|search_lines acc]; cbn [scan_lines] in H.
    + destruct (PyStr.eqb l search_marker); eapply IH; exact H.
    + destruct (PyStr.eqb l separator); eapply IH; exact H.
    + destruct (PyStr.eqb l replace_marker); [|eapply IH; exact H].
      cbv zeta in H. simpl andb in H.
      destruct (has_marker (join [LF] search_lines)).
      { injection H as <-. right. right. exists (n + 1). split; [lia | now left]. }
      destruct (has_marker (join [LF] (rev acc))).
      { injection H as <-. right. right. exists (n + 1). split; [lia | now right]. }
      destruct (scan_lines true Outside (S n) lines) as [more|e'] eqn:Hm; [discriminate|].
      simpl in H. injection H as <-.
      destruct (IH _ _ _ Hm) as [-> | [-> | (k & Hk & He)]]; auto.
      right. right. exists k. split; [lia | exact He].
Qed.

(** Where no opening marker occurs the structured extraction finds nothing,
    and where no line is the opening marker neither does the scan. *)
Lemma contains_tail (sub : str) (c : char) (t : str) :
  contains sub (c :: t) = false -> contains sub t = false.
Proof.
  intro H. destruct (contains sub t) eqn:C; [|reflexivity].
  apply index_of_contains in C as [i P].
  pose proof (contains_false _ _ H (S i)) as Q. cbn [skipn] in Q. congruence.
Qed.

Lemma findall_no_opening (text : str) :
  contains search_marker text = false -> Regex.findall pattern text = [].
Proof.
  induction text as [|c t IH]; intro H; [reflexivity|].
  rewrite findall_nomatch; [apply IH; eapply contains_tail; exact H|].
  unfold pattern. rewrite match_here_lit.
  destruct (prefix (search_marker ++ [LF]) (c :: t)) eqn:P; [|reflexivity].
  apply prefix_app_inv in P.
  pose proof (contains_false _ _ H 0) as Q. cbn [skipn] in Q. congruence.
Qed.

Lemma scan_no_opening (guard : bool) (lines : list str) :
  (forall l, In l lines -> l <> search_marker) ->
  forall n, scan_lines guard Outside n lines = Ok [].
Proof.
  induction lines as [|l lines IH]; intros H n; [reflexivity|].
  cbn [scan_lines]. replace (PyStr.eqb l search_marker) with false.
  - apply IH. intros l' Hl. apply H. now right.
  - symmetry. apply eqb_neq. apply H. now left.
Qed.

Lemma contains_infix (sub pre s post : str) :
  contains sub s = true -> contains sub (pre ++ s ++ post) = true.
Proof.
  intro H. apply index_of_contains in H as [i P].
  destruct (Nat.le_gt_cases i (length s)) as [L | G].
  - apply contains_true with (i := length pre + i).
    rewrite Nat.add_comm, <- skipn_skipn, skipn_prefix_app, skipn_app.
    replace (i - length s) with 0 by lia. now apply prefix_app_l.
  - rewrite skipn_all2 in P by lia. apply prefix_nil_r in P. subst sub.
    apply contains_true with (i := 0). reflexivity.
Qed.

Lemma lines_without_opening (text : str) :
  contains search_marker text = false ->
  forall l, In l (splitlines text) -> l <> search_marker.
Proof.
  intros H l Hin ->. destruct (splitlines_infix text _ Hin) as (pre & post & E).
  rewrite E, contains_infix in H; [discriminate|].
  apply contains_true with (i := 0). reflexivity.
Qed.

End ParserProperties.

Lemma validation_error_kind (patch_content : str) (e : error) :
  validate_block_integrity patch_content = Raise e ->
  (exists a b c, e = UnbalancedMarkers a b c) \/
  (exists i got, e = IncorrectSequence i got).
Proof.
  unfold validate_block_integrity. rewrite check_nested_split.
  destruct (negb _).
  - intro H. injection H as <-. left. eauto.
  - destruct (check_sequence_cases (marker_lines patch_content) 0)
      as [-> | (i & got & ->)]; [discriminate|].
    simpl. intro H. injection H as <-. right. eauto.
Qed.

(** The two ways in which the parser returns blocks. *)
Lemma parse_ok_cases (patch_content : str) (blocks : list block) :
  parse_search_replace_blocks patch_content = Ok blocks ->
  validate_block_integrity patch_content = Ok tt /\ blocks <> [] /\
  ((Regex.findall pattern patch_content = blocks /\ check_matches 0 blocks = Ok tt) \/
   (Regex.findall pattern patch_content = [] /\
    scan_lines true Outside 0 (splitlines patch_content) = Ok blocks)).
Proof.
  intro H. pose proof (parse_nonempty _ _ H) as Hne. revert H.
  unfold parse_search_replace_blocks.
  destruct (validate_block_integrity patch_content) as [[]|e]; [|discriminate].
  simpl bind. destruct (Regex.findall pattern patch_content) as [|m ms] eqn:F.
  - rewrite fallback_parse_scan. unfold scan_result.
    destruct (scan_lines true Outside 0 (splitlines patch_content)) as [[|b bs]|e];
      try discriminate.
    intro H. injection H as <-. auto.
  - destruct (check_matches 0 (m :: ms)) as [[]|e] eqn:C; [|discriminate].
    simpl. intro H. injection H as <-. auto.
Qed.

Lemma parse_render_patch (final_newline : bool) (blocks : list block) :
  blocks <> [] -> Forall marker_free blocks ->
  parse_search_replace_blocks (render_patch final_newline blocks) = Ok blocks.
Proof.
  intros Hne F. unfold parse_search_replace_blocks, validate_block_integrity.
  destruct (count_render_patch final_newline blocks F) as (-> & -> & ->).
  rewrite Nat.eqb_refl. simpl negb. cbv iota.
  rewrite (marker_lines_render_patch final_newline blocks F).
  rewrite check_sequence_triples, check_nested_split. simpl bind.
  rewrite (findall_render_patch final_newline blocks F).
  destruct blocks as [|b rest]; [contradiction|].
  now rewrite check_matches_free.
Qed.

(** X9: every block the parser returns has passed the leakage guard, by
    whichever extraction it was found: neither its search text nor its
    replace text contains one of the three marker literals; and the parser
    returns at least one block. *)
Theorem parsed_blocks_are_marker_free (patch_content : str) (blocks : list block) :
  parse_search_replace_blocks patch_content = Ok blocks ->
  blocks <> [] /\ Forall marker_free blocks.
Proof.
  intro H. apply parse_ok_cases in H as (_ & Hne & [[_ C] | [_ S]]).
  - split; [exact Hne|]. now apply (check_matches_ok blocks 0).
  - split; [exact Hne|]. now apply (scan_lines_ok (splitlines patch_content) Outside 0).
Qed.

Lemma parsed_blocks_are_marker_free_witness :
  [(lit "foo", lit "foobar")] <> [] /\ Forall marker_free [(lit "foo", lit "foobar")].
Proof.
  apply (parsed_blocks_are_marker_free patch_foo [(lit "foo", lit "foobar")]).
  reflexivity.
Defined.

(** X10: the errors of the parser.  An unbalanced-markers or sequence error
    is the error of validation.  A missing-separator, missing-replace-marker
    or invalid-format error comes from the alternative parsing, after
    validation has succeeded and the structured extraction has found no
    block.  A leakage error comes after validation has succeeded and names a
    block by a number from 1.  The parser raises no nested-marker error and
    none of the errors of the applier. *)
Theorem parse_errors (patch_content : str) (e : error) :
  parse_search_replace_blocks patch_content = Raise e ->
  match e with
  | UnbalancedMarkers _ _ _ | IncorrectSequence _ _ =>
      validate_block_integrity patch_content = Raise e
  | MissingSeparator | MissingReplaceMarker | InvalidPatchFormat =>
      validate_block_integrity patch_content = Ok tt /\
      Regex.findall pattern patch_content = []
  | SearchContainsMarkers k | ReplaceContainsMarkers k =>
      validate_block_integrity patch_content = Ok tt /\ 1 <= k
  | NestedMarker _ | AmbiguousMatch _ _ | SearchNotFound _ => False
  end.
Proof.
  unfold parse_search_replace_blocks.
  destruct (validate_block_integrity patch_content) as [[]|e'] eqn:V.
  - simpl bind. destruct (Regex.findall pattern patch_content) as [|m ms] eqn:F.
    + rewrite fallback_parse_scan. unfold scan_result.
      destruct (scan_lines true Outside 0 (splitlines patch_content))
        as [[|b bs]|e'] eqn:S; try discriminate.
      * intro H. injection H as <-. auto.
      * intro H. injection H as <-.
        destruct (scan_lines_error _ _ _ _ S) as [-> | [-> | (k & Hk & [-> | ->])]];
          split; auto; lia.
    + destruct (check_matches 0 (m :: ms)) as [[]|e'] eqn:C; [discriminate|].
      simpl. intro H. injection H as <-.
      destruct (check_matches_error _ _ _ C) as (k & Hk & [-> | ->]); split; auto; lia.
  - simpl. intro H. injection H as <-.
    destruct (validation_error_kind patch_content e' V)
      as [(a & b & c & E) | (i & g & E)]; subst e'; reflexivity.
Qed.

Lemma parse_errors_witness :
  validate_block_integrity patch_trailing_space = Ok tt /\
  Regex.findall pattern patch_trailing_space = [].
Proof.
  apply (parse_errors patch_trailing_space InvalidPatchFormat). reflexivity.
Defined.

(** X11: a text in which the opening marker does not occur is never parsed
    into blocks.  If it holds none of the three marker literals, a unified
    diff for instance, validation succeeds and the parser fails with the
    invalid-format error; otherwise the parser fails with the
    unbalanced-markers error, the count of opening markers being 0. *)
Theorem text_without_opening_marker (patch_content : str) :
  contains search_marker patch_content = false ->
  (has_marker patch_content = false ->
   validate_block_integrity patch_content = Ok tt /\
   parse_search_replace_blocks patch_content = Raise InvalidPatchFormat) /\
  (has_marker patch_content = true ->
   parse_search_replace_blocks patch_content =
   Raise (UnbalancedMarkers 0 (count patch_content separator)
                            (count patch_content replace_marker))).
Proof.
  intro Hs.
  assert (C1 : count patch_content search_marker = 0)
    by now apply (count_zero_contains search_marker ltac:(discriminate)).
  split.
  - intro Hm. apply has_marker_false in Hm as Hc. destruct Hc as (_ & H2 & H3).
    apply (count_zero_contains separator ltac:(discriminate)) in H2.
    apply (count_zero_contains replace_marker ltac:(discriminate)) in H3.
    assert (V : validate_block_integrity patch_content = Ok tt).
    { unfold validate_block_integrity. rewrite C1, H2, H3. simpl.
      rewrite (marker_lines_free _ Hm). simpl. apply check_nested_split. }
    split; [exact V|].
    unfold parse_search_replace_blocks. rewrite V. simpl bind.
    rewrite (findall_no_opening _ Hs), fallback_parse_scan. unfold scan_result.
    now rewrite (scan_no_opening true _ (lines_without_opening _ Hs)).
  - intro Hm. unfold parse_search_replace_blocks, validate_block_integrity.
    rewrite C1.
    assert (N : (0 =? count patch_content separator)
                && (count patch_content separator =? count patch_content replace_marker)
                = false).
    { destruct (count patch_content separator) as [|b] eqn:E2; [|reflexivity].
      destruct (count patch_content replace_marker) as [|c] eqn:E3; [|reflexivity].
      exfalso. apply (count_zero_contains separator ltac:(discriminate)) in E2.
      apply (count_zero_contains replace_marker ltac:(discriminate)) in E3.
      unfold has_marker in Hm. simpl in Hm. rewrite Hs, E2, E3 in Hm. discriminate. }
    rewrite N. reflexivity.
Qed.

Lemma text_without_opening_marker_witness :
  validate_block_integrity doc_foo = Ok tt /\
  parse_search_replace_blocks doc_foo = Raise InvalidPatchFormat.
Proof.
  apply (text_without_opening_marker doc_foo); reflexivity.
Defined.

(** X12: what the parser returns is a fixed point of writing and parsing:
    the blocks parsed from any text, written out in the format of the tool
    (each marker on a line of its own, with or without a final line feed),
    parse to the same blocks, and the tool does with the rewritten patch
    what it does with the original one. *)
Theorem reparse_written_blocks
        (patch_content : str) (blocks : list block) (final_newline : bool) :
  parse_search_replace_blocks patch_content = Ok blocks ->
  parse_search_replace_blocks (render_patch final_newline blocks) = Ok blocks /\
  forall fs, update_project_memory fs (render_patch final_newline blocks) =
             update_project_memory fs patch_content.
Proof.
  intro H.
  assert (R : parse_search_replace_blocks (render_patch final_newline blocks) = Ok blocks).
  { apply parse_ok_cases in H as (_ & Hne & [[_ C] | [_ S]]).
    - apply parse_render_patch; [exact Hne|]. now apply (check_matches_ok blocks 0).
    - apply parse_render_patch; [exact Hne|].
      now apply (scan_lines_ok (splitlines patch_content) Outside 0). }
  split; [exact R|]. intro fs. unfold update_project_memory. now rewrite R, H.
Qed.

Lemma reparse_written_blocks_witness :
  parse_search_replace_blocks (render_patch true [(lit "a", lit "b")]) =
  Ok [(lit "a", lit "b")] /\
  forall fs, update_project_memory fs (render_patch true [(lit "a", lit "b")]) =
             update_project_memory fs patch_crlf.
Proof.
  apply (reparse_written_blocks patch_crlf [(lit "a", lit "b")] true). reflexivity.
Defined.


(** ** Lines and line ends *)

Section LineEnds.

(** No line that [splitlines] returns contains a line end. *)
Lemma splitlines_are_lines (s : str) :
  forall l, In l (splitlines s) -> is_line l.
Proof.
  remember (length s) as n eqn:En. revert s En.
  induction n as [n IH] using lt_wf_ind. intros s -> l Hin.
  destruct s as [|c t]; [contradiction|].
  assert (IHt : forall l', In l' (splitlines t) -> is_line l')
    by (apply (IH (length t)); [simpl; lia | reflexivity]).
  destruct (is_linebreak c) eqn:E.
  - rewrite splitlines_linebreak in Hin by exact E.
    destruct Hin as [<- | Hin]; [intros c' []|].
    destruct (N.eqb c CR); [|now apply IHt].
    destruct t as [|c' t']; [contradiction|].
    destruct (N.eqb c' LF); [|now apply IHt].
    apply (IH (length t')) with (s := t'); [simpl; lia | reflexivity | exact Hin].
  - rewrite splitlines_char in Hin by exact E.
    destruct (splitlines t) as [|l0 ls0] eqn:Et.
    + destruct Hin as [<- | []]. intros c' [<- | []]. exact E.
    + destruct Hin as [<- | Hin].
      * intros c' [<- | Hc]; [exact E|]. apply (IHt l0); [now left | exact Hc].
      * apply IHt. now right.
Qed.

(** Lines joined with line feeds have no other line end. *)
Lemma join_lines_only_LF (lines : list str) :
  Forall is_line lines -> only_LF_line_ends (join [LF] lines).
Proof.
  induction 1 as [|l [|q rest] Hl F IH]; intros c Hc Hb.
  - contradiction.
  - simpl in Hc. rewrite (Hl c Hc) in Hb. discriminate.
  - change (join [LF] (l :: q :: rest)) with (l ++ LF :: join [LF] (q :: rest)) in Hc.
    apply in_app_or in Hc as [Hc | [<- | Hc]].
    + rewrite (Hl c Hc) in Hb. discriminate.
    + reflexivity.
    + now apply IH.
Qed.

(** The payloads of the blocks the scan takes are lines of the text joined
    with line feeds. *)
Lemma scan_lines_payloads (guard : bool) (lines : list str) :
  forall st n blocks,
    Forall is_line lines ->
    match st with
    | Outside => True
    | InSearch acc => Forall is_line acc
    | InReplace search_lines acc => Forall is_line search_lines /\ Forall is_line acc
    end ->
    scan_lines guard st n lines = Ok blocks ->
    Forall (fun b => only_LF_line_ends (fst b) /\ only_LF_line_ends (snd b)) blocks.
Proof.
  induction lines as [|l lines IH]; intros st n blocks F I H.
  - destruct st; try discriminate. injection H as <-. constructor.
  - inversion F as [|? ? Hl F']; subst.
    destruct st as [|acc|search_lines acc]; cbn [scan_lines] in H.
    + destruct (PyStr.eqb l search_marker).
      * apply (IH (InSearch []) n); auto.
      * apply (IH Outside n); auto.
    + destruct (PyStr.eqb l separator).
      * apply (IH (InReplace (rev acc) []) n); auto. split; [|constructor].
        now apply Forall_rev.
      * apply (IH (InSearch (l :: acc)) n); auto.
    + destruct I as [Is Ia]. destruct (PyStr.eqb l replace_marker).
      * cbv zeta in H.
        destruct (guard && has_marker (join [LF] search_lines)); [discriminate|].
        destruct (guard && has_marker (join [LF] (rev acc))); [discriminate|].
        destruct (scan_lines guard Outside (S n) lines) as [more|e] eqn:Hm;
          [|discriminate].
        simpl in H. injection H as <-. constructor.
        -- split; apply join_lines_only_LF; [exact Is | now apply Forall_rev].
        -- apply (IH Outside (S n)); auto.
      * apply (IH (InReplace search_lines (l :: acc)) n); auto.
Qed.

End LineEnds.

(** X14: the alternative parsing normalises line ends: when the structured
    extraction has found no block, the search and replace texts of the
    blocks the parser returns are lines of the patch joined with line feeds,
    so that a line feed is the only line end in them, whatever line ends the
    patch text uses. *)
Theorem fallback_normalises_line_ends (patch_content : str) (blocks : list block) :
  Regex.findall pattern patch_content = [] ->
  parse_search_replace_blocks patch_content = Ok blocks ->
  Forall (fun b => only_LF_line_ends (fst b) /\ only_LF_line_ends (snd b)) blocks.
Proof.
  intros F H. apply parse_ok_cases in H as (_ & Hne & [[E _] | [_ S]]).
  - rewrite F in E. subst blocks. contradiction.
  - apply (scan_lines_payloads true (splitlines patch_content) Outside 0); auto.
    apply Forall_forall. apply splitlines_are_lines.
Qed.

Lemma fallback_normalises_line_ends_witness :
  Forall (fun b => only_LF_line_ends (fst b) /\ only_LF_line_ends (snd b))
         [(lit "a", lit "b")].
Proof.
  apply (fallback_normalises_line_ends patch_crlf [(lit "a", lit "b")]); reflexivity.
Defined.

(** ** Patches with lines ended by a carriage return and a line feed *)

Section CharSeparated.

Variable m : str.
Variable c : char.
Hypothesis m_nonempty : m <> [].
Hypothesis m_without_c : ~ In c m.

(** An occurrence of [m] does not extend over a character that [m] does not
    contain. *)
Lemma count_app_char (a b : str) :
  count (a ++ c :: b) m = count a m + count b m.
Proof.
  remember (length a) as n eqn:En. revert a En.
  induction n as [n IH] using lt_wf_ind. intros a ->.
  pose proof (prefix_before_char c m a b m_without_c) as P.
  destruct a as [|x a'].
  - simpl app in *. rewrite (count_nil m m_nonempty).
    destruct (prefix m []) eqn:E; [apply prefix_nil_r in E; contradiction|].
    now rewrite (count_nomatch m _ _ P).
  - destruct (prefix m (x :: a')) eqn:E.
    + rewrite (count_match m m_nonempty _ P), (count_match m m_nonempty _ E).
      pose proof (prefix_length _ _ E) as L.
      rewrite skipn_app. replace (length m - length (x :: a')) with 0 by lia.
      simpl skipn at 2.
      rewrite (IH (length (skipn (length m) (x :: a')))); [reflexivity | | reflexivity].
      rewrite length_skipn. destruct m; [contradiction | simpl; lia].
    + rewrite <- app_comm_cons in *.
      rewrite (count_nomatch m _ _ P), (count_nomatch m _ _ E).
      apply (IH (length a')); [simpl; lia | reflexivity].
Qed.

End CharSeparated.

Section CrlfLines.

Lemma crlf_text_cons (final_newline : bool) (l : str) (rest : list str) :
  rest <> [] ->
  crlf_text final_newline (l :: rest) = l ++ CR :: LF :: crlf_text final_newline rest.
Proof. destruct rest; [contradiction | reflexivity]. Qed.

Lemma crlf_text_last (final_newline : bool) (l : str) :
  crlf_text final_newline [l] = l ++ (if final_newline then [CR; LF] else []).
Proof. reflexivity. Qed.

Lemma is_line_no_char (l : str) (c : char) :
  is_line l -> is_linebreak c = true -> ~ In c l.
Proof. intros H Hc Hin. rewrite (H c Hin) in Hc. discriminate. Qed.

(** The text is counted line by line. *)
Lemma count_crlf_text (m : str) (final_newline : bool) (lines : list str) :
  m <> [] -> ~ In CR m -> ~ In LF m ->
  count (crlf_text final_newline lines) m = list_sum (map (fun l => count l m) lines).
Proof.
  intros Hne Hcr Hlf.
  assert (A : forall a b, count (a ++ CR :: LF :: b) m = count a m + count b m).
  { intros a b. rewrite (count_app_char m CR Hne Hcr).
    change (LF :: b) with ([] ++ LF :: b).
    now rewrite (count_app_char m LF Hne Hlf), (count_nil m Hne). }
  induction lines as [|l rest IH]; [now apply count_nil|].
  destruct rest as [|q rest'].
  - rewrite crlf_text_last. simpl map. simpl list_sum. rewrite Nat.add_0_r.
    destruct final_newline; [|now rewrite app_nil_r].
    now rewrite A, (count_nil m Hne), Nat.add_0_r.
  - rewrite crlf_text_cons by discriminate. rewrite A, IH. reflexivity.
Qed.

(** The lines of the text are the lines it was made of. *)
Lemma splitlines_line_crlf (l rest : str) :
  is_line l -> splitlines (l ++ CR :: LF :: rest) = l :: splitlines rest.
Proof.
  induction l as [|c l IH]; intro H; [reflexivity|].
  rewrite <- app_comm_cons, splitlines_char by (apply H; now left).
  rewrite IH; [reflexivity|]. intros c' Hc. apply H. now right.
Qed.

Lemma splitlines_line (l : str) : is_line l -> l <> [] -> splitlines l = [l].
Proof.
  induction l as [|c l IH]; intros H Hne; [contradiction|].
  rewrite splitlines_char by (apply H; now left).
  destruct l as [|c' l']; [reflexivity|].
  rewrite IH; [reflexivity | | discriminate]. intros x Hx. apply H. now right.
Qed.

Lemma splitlines_crlf_text (final_newline : bool) (lines : list str) (last : str) :
  Forall is_line (lines ++ [last]) -> last <> [] ->
  splitlines (crlf_text final_newline (lines ++ [last])) = lines ++ [last].
Proof.
  intros F Hne. induction lines as [|l lines IH].
  - simpl app in *. inversion F as [|? ? Hl _]; subst. rewrite crlf_text_last.
    destruct final_newline.
    + now rewrite splitlines_line_crlf.
    + rewrite app_nil_r. now apply splitlines_line.
  - rewrite <- app_comm_cons in *. inversion F as [|? ? Hl F']; subst.
    rewrite crlf_text_cons by (destruct lines; discriminate).
    rewrite splitlines_line_crlf by exact Hl. now rewrite IH.
Qed.

(** The structured extraction finds nothing: no opening marker of the text
    is followed by a line feed. *)
Lemma prefix_in (p s : str) (c : char) : prefix p s = true -> In c p -> In c s.
Proof.
  intros H Hin. apply prefix_split in H. rewrite H. apply in_or_app. now left.
Qed.

Lemma no_match_in_line (t : str) :
  ~ In LF t -> prefix (search_marker ++ [LF]) t = false.
Proof.
  intro H. destruct (prefix (search_marker ++ [LF]) t) eqn:P; [|reflexivity].
  exfalso. apply H. apply (prefix_in _ _ LF P). apply in_or_app. right. now left.
Qed.

Lemma findall_line (l : str) : ~ In LF l -> Regex.findall pattern l = [].
Proof.
  induction l as [|c l IH]; intro H; [reflexivity|].
  rewrite findall_nomatch.
  - apply IH. intro Hin. apply H. now right.
  - unfold pattern. now rewrite match_here_lit, no_match_in_line.
Qed.

Lemma findall_skip_line (l rest : str) :
  ~ In LF l ->
  Regex.findall pattern (l ++ CR :: LF :: rest) = Regex.findall pattern rest.
Proof.
  induction l as [|c l IH]; intro H.
  - simpl app. now rewrite !findall_nomatch by reflexivity.
  - rewrite <- app_comm_cons, findall_nomatch.
    + apply IH. intro Hin. apply H. now right.
    + unfold pattern. rewrite match_here_lit, app_comm_cons.
      rewrite prefix_before_char, no_match_in_line; [reflexivity | exact H |].
      intro Hin. simpl in Hin.
      repeat (destruct Hin as [Hin | Hin]; [discriminate|]). exact Hin.
Qed.

Lemma findall_crlf_text (final_newline : bool) (lines : list str) :
  Forall is_line lines -> Regex.findall pattern (crlf_text final_newline lines) = [].
Proof.
  induction 1 as [|l rest Hl F IH]; [reflexivity|].
  assert (Hlf : ~ In LF l) by now apply is_line_no_char.
  destruct rest as [|q rest'].
  - rewrite crlf_text_last. destruct final_newline.
    + now rewrite findall_skip_line.
    + rewrite app_nil_r. now apply findall_line.
  - rewrite crlf_text_cons by discriminate. now rewrite findall_skip_line.
Qed.

End CrlfLines.

Section CrlfBlocks.

Lemma join_infix (sep : str) (lines : list str) (l : str) :
  In l lines -> exists pre post, join sep lines = pre ++ l ++ post.
Proof.
  induction lines as [|q [|q' rest] IH]; intro Hin; [contradiction | |].
  - destruct Hin as [<- | []]. exists [], []. simpl. now rewrite app_nil_r.
  - change (join sep (q :: q' :: rest)) with (q ++ sep ++ join sep (q' :: rest)).
    destruct Hin as [<- | Hin].
    + now exists [], (sep ++ join sep (q' :: rest)).
    + destruct (IH Hin) as (pre & post & ->).
      exists (q ++ sep ++ pre), post. now rewrite <- !app_assoc.
Qed.

(** A line of a payload that contains no marker literal contains none
    either. *)
Lemma payload_line_free (lines : list str) (l : str) :
  has_marker (join [LF] lines) = false -> In l lines -> has_marker l = false.
Proof.
  intros H Hin. destruct (has_marker l) eqn:E; [|reflexivity].
  destruct (join_infix [LF] lines l Hin) as (pre & post & J).
  apply (has_marker_infix pre _ post) in E. rewrite <- J in E. congruence.
Qed.

Lemma free_line_not_marker_line (l : str) :
  has_marker l = false -> is_marker_line (strip l) = false.
Proof.
  intro H. destruct (is_marker_line (strip l)) eqn:M; [|reflexivity].
  apply is_marker_line_has_marker in M.
  destruct (strip_infix l) as (a & b & E).
  apply (has_marker_infix a _ b) in M. rewrite <- E in M. congruence.
Qed.

Lemma marker_is_line (m : str) :
  In m marker_triple -> is_line m.
Proof.
  intros Hm c Hc. simpl in Hm. destruct Hm as [<- | [<- | [<- | []]]];
    simpl in Hc; repeat (destruct Hc as [<- | Hc]; [reflexivity|]); contradiction.
Qed.

Lemma lines_of_blocks_are_lines (blocks : list line_block) :
  Forall clean_line_block blocks ->
  Forall is_line (flat_map lines_of_block blocks).
Proof.
  induction 1 as [|[ss rs] rest (Fs & Fr & _) F IH]; [constructor|].
  simpl flat_map. unfold lines_of_block. simpl fst in *. simpl snd in *.
  constructor; [apply marker_is_line; simpl; auto|].
  apply Forall_app. split.
  - apply Forall_app. split; [exact Fs|].
    constructor; [apply marker_is_line; simpl; auto|].
    apply Forall_app. split; [exact Fr|].
    constructor; [apply marker_is_line; simpl; auto | constructor].
  - exact IH.
Qed.

Lemma lines_of_blocks_end (blocks : list line_block) :
  blocks <> [] -> exists lines, flat_map lines_of_block blocks = lines ++ [replace_marker].
Proof.
  induction blocks as [|[ss rs] rest IH]; intro Hne; [contradiction|].
  change (flat_map lines_of_block ((ss, rs) :: rest))
    with ((search_marker :: ss ++ separator :: rs ++ [replace_marker])
            ++ flat_map lines_of_block rest).
  destruct rest as [|b rest'].
  - exists (search_marker :: ss ++ separator :: rs).
    simpl flat_map. rewrite app_nil_r. rewrite <- !app_comm_cons, <- app_assoc.
    reflexivity.
  - destruct (IH ltac:(discriminate)) as [lines ->].
    exists ((search_marker :: ss ++ separator :: rs ++ [replace_marker]) ++ lines).
    now rewrite <- app_assoc.
Qed.

(** Each marker is counted once per block, and is a line once per block. *)
Lemma count_lines_of_blocks (m : str) (blocks : list line_block) :
  In m marker_triple -> Forall clean_line_block blocks ->
  list_sum (map (fun l => count l m) (flat_map lines_of_block blocks)) = length blocks.
Proof.
  intros Hm F.
  assert (Hne : m <> [])
    by (simpl in Hm; destruct Hm as [<- | [<- | [<- | []]]]; discriminate).
  assert (Z : forall lines, has_marker (join [LF] lines) = false ->
                            list_sum (map (fun l => count l m) lines) = 0).
  { intros lines Hf.
    assert (A : forall l, In l lines -> count l m = 0).
    { intros l Hl. apply (count_zero_contains m Hne).
      pose proof (payload_line_free lines l Hf Hl) as Hfl.
      apply has_marker_false in Hfl as (H1 & H2 & H3).
      simpl in Hm. destruct Hm as [<- | [<- | [<- | []]]]; assumption. }
    clear Hf. induction lines as [|l lines IHl]; [reflexivity|].
    simpl. rewrite (A l) by now left. apply IHl.
    intros l' Hl'. apply A. now right. }
  induction F as [|[ss rs] rest (_ & _ & Fs & Fr) F IH]; [reflexivity|].
  change (flat_map lines_of_block ((ss, rs) :: rest))
    with ((search_marker :: ss ++ separator :: rs ++ [replace_marker])
            ++ flat_map lines_of_block rest).
  simpl fst in *. simpl snd in *.
  rewrite map_app, list_sum_app, IH.
  rewrite map_cons, map_app, map_cons, map_app.
  assert (Sc : forall x l, list_sum (x :: l) = x + list_sum l) by reflexivity.
  rewrite Sc, list_sum_app, Sc, list_sum_app.
  rewrite (Z ss Fs), (Z rs Fr). simpl map. rewrite Sc. simpl list_sum at 1.
  simpl in Hm. destruct Hm as [<- | [<- | [<- | []]]]; reflexivity.
Qed.

End CrlfBlocks.

Section CrlfParse.

Lemma marker_lines_of_blocks (blocks : list line_block) :
  Forall clean_line_block blocks ->
  filter is_marker_line (map strip (flat_map lines_of_block blocks)) =
  marker_triples (length blocks).
Proof.
  assert (Z : forall lines, has_marker (join [LF] lines) = false ->
                            filter is_marker_line (map strip lines) = []).
  { intros lines Hf.
    assert (A : forall l, In l lines -> is_marker_line (strip l) = false).
    { intros l Hl. apply free_line_not_marker_line.
      now apply (payload_line_free lines). }
    clear Hf. induction lines as [|l lines IHl]; [reflexivity|].
    simpl. rewrite (A l) by now left. apply IHl.
    intros l' Hl'. apply A. now right. }
  induction 1 as [|[ss rs] rest (_ & _ & Fs & Fr) F IH]; [reflexivity|].
  change (flat_map lines_of_block ((ss, rs) :: rest))
    with ((search_marker :: ss ++ separator :: rs ++ [replace_marker])
            ++ flat_map lines_of_block rest).
  simpl fst in *. simpl snd in *.
  rewrite map_app, filter_app, IH.
  rewrite map_cons, map_app, map_cons, map_app.
  assert (Fc : forall l, filter is_marker_line (strip search_marker :: l) =
                         search_marker :: filter is_marker_line l) by reflexivity.
  assert (Fd : forall l, filter is_marker_line (strip separator :: l) =
                         separator :: filter is_marker_line l) by reflexivity.
  rewrite Fc, filter_app, Fd, filter_app, (Z ss Fs), (Z rs Fr).
  reflexivity.
Qed.

Lemma break_at_app (target : str) (before after : list str) :
  (forall l, In l before -> l <> target) ->
  break_at target (before ++ target :: after) = Some (before, after).
Proof.
  induction before as [|l before IH]; intro H.
  - simpl. now rewrite eqb_refl.
  - simpl. replace (PyStr.eqb l target) with false
      by (symmetry; apply eqb_neq; apply H; now left).
    rewrite IH; [reflexivity|]. intros l' Hl'. apply H. now right.
Qed.

Lemma payload_line_not_marker (lines : list str) (l m : str) :
  has_marker (join [LF] lines) = false -> In m marker_triple -> In l lines -> l <> m.
Proof.
  intros Hf Hm Hl ->. pose proof (payload_line_free lines m Hf Hl) as H.
  simpl in Hm. destruct Hm as [<- | [<- | [<- | []]]]; discriminate.
Qed.

(** The scan takes the blocks one after the other. *)
Lemma scan_lines_of_blocks (blocks : list line_block) :
  Forall clean_line_block blocks ->
  forall n, scan_lines true Outside n (flat_map lines_of_block blocks) =
            Ok (map block_of_lines blocks).
Proof.
  induction 1 as [|[ss rs] rest (_ & _ & Fs & Fr) F IH]; intro n; [reflexivity|].
  change (flat_map lines_of_block ((ss, rs) :: rest))
    with (search_marker ::
          (ss ++ separator :: rs ++ [replace_marker]) ++ flat_map lines_of_block rest).
  simpl fst in *. simpl snd in *.
  cbn [scan_lines]. rewrite eqb_refl, scan_in_search.
  rewrite <- app_assoc, <- app_comm_cons, <- app_assoc. simpl app at 2.
  rewrite break_at_app
    by (intros l Hl; apply (payload_line_not_marker ss); simpl; auto).
  simpl rev. simpl app at 1. rewrite scan_in_replace.
  rewrite break_at_app
    by (intros l Hl; apply (payload_line_not_marker rs); simpl; auto).
  simpl rev. simpl app at 1. cbv zeta. simpl andb. rewrite Fs, Fr, IH.
  reflexivity.
Qed.

End CrlfParse.

(** X15: patches with lines ended by a carriage return and a line feed are
    parsed by the alternative parsing.  For N >= 1 blocks given by the lines
    of their parts, no part containing a marker literal, written with the
    three markers on lines of their own and a carriage return and a line
    feed after each line (after the last one or not), validation succeeds,
    the structured extraction finds nothing, and the parser returns the N
    blocks in order, the lines of each part joined with line feeds. *)
Theorem crlf_patch_parses (final_newline : bool) (blocks : list line_block) :
  blocks <> [] ->
  Forall clean_line_block blocks ->
  validate_block_integrity (render_crlf final_newline blocks) = Ok tt /\
  Regex.findall pattern (render_crlf final_newline blocks) = [] /\
  parse_search_replace_blocks (render_crlf final_newline blocks) =
  Ok (map block_of_lines blocks).
Proof.
  intros Hne F. unfold render_crlf.
  pose proof (lines_of_blocks_are_lines blocks F) as L.
  destruct (lines_of_blocks_end blocks Hne) as [lines E].
  assert (S : splitlines (crlf_text final_newline (flat_map lines_of_block blocks)) =
              flat_map lines_of_block blocks).
  { rewrite E in *. apply splitlines_crlf_text; [exact L | discriminate]. }
  assert (C : forall m, In m marker_triple ->
                        count (crlf_text final_newline (flat_map lines_of_block blocks)) m =
                        length blocks).
  { intros m Hm. rewrite count_crlf_text.
    - now apply count_lines_of_blocks.
    - simpl in Hm. destruct Hm as [<- | [<- | [<- | []]]]; discriminate.
    - apply is_line_no_char; [now apply marker_is_line | reflexivity].
    - apply is_line_no_char; [now apply marker_is_line | reflexivity]. }
  assert (V : validate_block_integrity
                (crlf_text final_newline (flat_map lines_of_block blocks)) = Ok tt).
  { apply validation_succeeds_by_triples with (n := length blocks).
    - rewrite !C by (simpl; auto). auto.
    - unfold marker_lines. rewrite S. now apply marker_lines_of_blocks. }
  assert (R : Regex.findall pattern
                (crlf_text final_newline (flat_map lines_of_block blocks)) = [])
    by now apply findall_crlf_text.
  split; [exact V|]. split; [exact R|].
  unfold parse_search_replace_blocks. rewrite V, R. simpl bind.
  rewrite fallback_parse_scan. unfold scan_result.
  rewrite S, (scan_lines_of_blocks blocks F).
  destruct blocks as [|b rest]; [contradiction | reflexivity].
Qed.

Lemma crlf_patch_parses_witness :
  validate_block_integrity (render_crlf true [([lit "a"; lit "b"], [])]) = Ok tt /\
  Regex.findall pattern (render_crlf true [([lit "a"; lit "b"], [])]) = [] /\
  parse_search_replace_blocks (render_crlf true [([lit "a"; lit "b"], [])]) =
  Ok (map block_of_lines [([lit "a"; lit "b"], [])]).
Proof.
  apply (crlf_patch_parses true [([lit "a"; lit "b"], [])]).
  - discriminate.
  - repeat constructor; intros c Hc; simpl in Hc;
      repeat (destruct Hc as [<- | Hc]; [reflexivity|]); contradiction.
Defined.

(** ** The tools that read and set the whole memory *)

Section AccessTools.

Lemma in_allowed_directories_iff (allowed_directories : list str) (pp : str) :
  in_allowed_directories allowed_directories pp = true <->
  exists base suffix, In base allowed_directories /\ pp = base ++ suffix.
Proof.
  unfold in_allowed_directories. rewrite existsb_exists. split.
  - intros (base & Hin & P). exists base, (skipn (length base) pp).
    split; [exact Hin | now apply prefix_split].
  - intros (base & suffix & Hin & ->). exists base. split; [exact Hin | apply prefix_app].
Qed.

End AccessTools.

(** X16: the allow-list is tested on the characters of the path, not on its
    components.  With [base] the only allowed directory, [base] not ending
    in the separator of path components, a path that continues the name of
    [base] by a character other than the separator is neither [base] nor
    below it, and the allow-list accepts it all the same: neither reading
    nor setting the memory there is refused for it. *)
Theorem allow_list_is_a_string_prefix_test
        (sep : char) (base rest : str) (c : char) (fs : filesystem)
        (project_info : str) :
  c <> sep ->
  (forall base', base <> base' ++ [sep]) ->
  let pp := base ++ c :: rest in
  ~ inside_directory sep base pp /\
  in_allowed_directories [base] pp = true /\
  get_project_memory [base] pp fs <> Refused ProjectPathNotAllowed /\
  snd (set_project_memory [base] pp fs project_info) <> Refused ProjectPathNotAllowed.
Proof.
  intros Hc Hb pp.
  assert (A : in_allowed_directories [base] pp = true).
  { apply in_allowed_directories_iff. exists base, (c :: rest). split; [now left | reflexivity]. }
  split; [|split; [exact A|split]].
  - intros (rest0 & E & H). unfold pp in E. apply app_inv_head in E. subst rest0.
    destruct H as [H | [(rest' & H) | (base' & H)]].
    + discriminate.
    + injection H as H _. contradiction.
    + exact (Hb base' H).
  - unfold get_project_memory. rewrite A. simpl.
    destruct (project_is_dir fs); simpl; [|discriminate].
    destruct (memory_file fs) as [stored|]; [|discriminate].
    destruct (read_fails fs LocaleEncoding stored); discriminate.
  - unfold set_project_memory. rewrite A. simpl.
    destruct (project_is_dir fs); simpl; [|discriminate].
    destruct (write_text LocaleEncoding fs project_info) as [fs' [w|]]; discriminate.
Qed.

Lemma allow_list_is_a_string_prefix_test_witness :
  ~ inside_directory 47%N (lit "/home/u") (lit "/home/u2/p") /\
  in_allowed_directories [lit "/home/u"] (lit "/home/u2/p") = true /\
  get_project_memory [lit "/home/u"] (lit "/home/u2/p") fs_foo <>
  Refused ProjectPathNotAllowed /\
  snd (set_project_memory [lit "/home/u"] (lit "/home/u2/p") fs_foo doc_ab) <>
  Refused ProjectPathNotAllowed.
Proof.
  apply (allow_list_is_a_string_prefix_test
           47%N (lit "/home/u") (lit "/p") 50%N fs_foo doc_ab).
  - discriminate.
  - intros base' H. apply (f_equal (@rev char)) in H.
    rewrite rev_app_distr in H. simpl in H. discriminate.
Defined.

Section TextFiles.

(** A text without carriage returns is read back as it was written, on a
    platform whose line separator is a line feed or a carriage return and a
    line feed. *)
Lemma read_back (linesep content : str) :
  linesep = [LF] \/ linesep = [CR; LF] ->
  ~ In CR content ->
  universal_newlines (write_newlines linesep content) = content.
Proof.
  intros Hl Hcr. induction content as [|c t IH]; [reflexivity|].
  assert (Ht : ~ In CR t) by (intro H; apply Hcr; now right).
  assert (Hc : N.eqb c CR = false).
  { apply N.eqb_neq. intro E. apply Hcr. now left. }
  unfold write_newlines in *. cbn [flat_map].
  destruct (N.eqb c LF) eqn:E.
  - apply N.eqb_eq in E. subst c.
    destruct Hl as [-> | ->]; cbn [app universal_newlines]; simpl N.eqb; cbv iota;
      now rewrite IH.
  - cbn [app universal_newlines]. rewrite Hc. now rewrite IH.
Qed.

Lemma write_text_writes (enc : encoding) (fs fs' : filesystem) (content : str)
      (w : option write_error) :
  write_text enc fs content = (fs', w) ->
  open_fails fs = false -> writes fs' = content :: writes fs.
Proof.
  unfold write_text. intros H Ho. rewrite Ho in H.
  destruct (match enc with Utf8 => existsb is_surrogate content | LocaleEncoding => false end).
  - now injection H as <- _.
  - destruct (write_fails fs enc content); now injection H as <- _.
Qed.

End TextFiles.

(** X17: setting the memory and reading it.  For a project path that is a
    directory within the allowed directories, when the write does not fail,
    [set_project_memory] succeeds whatever the memory file held, or if there
    was none, and writes once.  If the text set has no carriage return and
    the file just written can be read, [get_project_memory] then returns
    that text; and [update_project_memory] no longer fails for want of a
    directory or of a memory file. *)
Theorem set_then_get
        (allowed_directories : list str) (pp : str) (fs : filesystem)
        (project_info : str) :
  project_is_dir fs = true ->
  in_allowed_directories allowed_directories pp = true ->
  open_fails fs = false ->
  write_fails fs LocaleEncoding project_info = None ->
  let fs' := fst (set_project_memory allowed_directories pp fs project_info) in
  snd (set_project_memory allowed_directories pp fs project_info) = Returned tt /\
  memory_file fs' = Some (write_newlines (linesep fs) project_info) /\
  writes fs' = project_info :: writes fs /\
  (~ In CR project_info ->
   linesep fs = [LF] \/ linesep fs = [CR; LF] ->
   read_fails fs LocaleEncoding (write_newlines (linesep fs) project_info) = false ->
   get_project_memory allowed_directories pp fs' = Returned project_info) /\
  forall patch_content,
    snd (update_project_memory fs' patch_content) <> ProjectPathMissing /\
    snd (update_project_memory fs' patch_content) <> MemoryFileMissing.
Proof.
  intros Hd Ha Ho Hw. unfold set_project_memory, write_text.
  rewrite Hd, Ha, Ho, Hw. simpl.
  split; [reflexivity|]. split; [reflexivity|]. split; [reflexivity|]. split.
  - intros Hcr Hl Hr. unfold get_project_memory. simpl.
    rewrite Hd, Ha, Hr. simpl. now rewrite read_back.
  - intro patch_content. unfold update_project_memory. simpl. rewrite Hd. simpl.
    destruct (read_fails fs Utf8 _); [split; discriminate|].
    destruct (parse_search_replace_blocks patch_content) as [[|b bs]|e];
      try (split; discriminate).
    destruct (apply_blocks _ (b :: bs)) as [[final n]|e]; try (split; discriminate).
    destruct (write_text Utf8 _ final) as [fs2 [w|]]; split; discriminate.
Qed.

Lemma set_then_get_witness :
  snd (set_project_memory [lit "/home/u"] (lit "/home/u/p") fs_foo doc_ab) = Returned tt /\
  memory_file (fst (set_project_memory [lit "/home/u"] (lit "/home/u/p") fs_foo doc_ab)) =
  Some (write_newlines (linesep fs_foo) doc_ab) /\
  writes (fst (set_project_memory [lit "/home/u"] (lit "/home/u/p") fs_foo doc_ab)) =
  doc_ab :: writes fs_foo /\
  (~ In CR doc_ab ->
   linesep fs_foo = [LF] \/ linesep fs_foo = [CR; LF] ->
   read_fails fs_foo LocaleEncoding (write_newlines (linesep fs_foo) doc_ab) = false ->
   get_project_memory [lit "/home/u"] (lit "/home/u/p")
     (fst (set_project_memory [lit "/home/u"] (lit "/home/u/p") fs_foo doc_ab)) =
   Returned doc_ab) /\
  forall patch_content,
    snd (update_project_memory
           (fst (set_project_memory [lit "/home/u"] (lit "/home/u/p") fs_foo doc_ab))
           patch_content) <> ProjectPathMissing /\
    snd (update_project_memory
           (fst (set_project_memory [lit "/home/u"] (lit "/home/u/p") fs_foo doc_ab))
           patch_content) <> MemoryFileMissing.
Proof.
  apply (set_then_get [lit "/home/u"] (lit "/home/u/p") fs_foo doc_ab); reflexivity.
Defined.

(** X18: [get_project_memory] and [set_project_memory] make the same two
    checks of the project path, in the same order, and are refused by them
    alike; a [set_project_memory] refused by them leaves the file system as
    it was.  The existence of the directory is tested before the allow-list:
    for a path outside the allowed directories the error tells whether the
    directory exists. *)
Theorem path_checks_agree
        (allowed_directories : list str) (pp : str) (fs : filesystem)
        (project_info : str) :
  (forall e,
      e = ProjectPathNotFound \/ e = ProjectPathNotAllowed ->
      (get_project_memory allowed_directories pp fs = Refused e <->
       set_project_memory allowed_directories pp fs project_info = (fs, Refused e))) /\
  (in_allowed_directories allowed_directories pp = false ->
   get_project_memory allowed_directories pp fs =
   Refused (if project_is_dir fs then ProjectPathNotAllowed else ProjectPathNotFound) /\
   set_project_memory allowed_directories pp fs project_info =
   (fs, Refused (if project_is_dir fs then ProjectPathNotAllowed
                 else ProjectPathNotFound))).
Proof.
  unfold get_project_memory, set_project_memory. split.
  - intros e He.
    destruct (project_is_dir fs); simpl.
    + destruct (in_allowed_directories allowed_directories pp); simpl.
      * destruct (memory_file fs) as [stored|];
          [destruct (read_fails fs LocaleEncoding stored)|];
          destruct (write_text LocaleEncoding fs project_info) as [fs' [w|]];
          destruct He as [-> | ->]; split; intro H; discriminate H.
      * split; intro H; [injection H as <- | injection H as <-]; reflexivity.
    + split; intro H; [injection H as <- | injection H as <-]; reflexivity.
  - intro Ha. rewrite Ha. destruct (project_is_dir fs); simpl; split; reflexivity.
Qed.

Lemma path_checks_agree_witness :
  get_project_memory [lit "/home/u"] (lit "/srv/p") fs_foo =
  Refused (if project_is_dir fs_foo then ProjectPathNotAllowed else ProjectPathNotFound) /\
  set_project_memory [lit "/home/u"] (lit "/srv/p") fs_foo doc_ab =
  (fs_foo, Refused (if project_is_dir fs_foo then ProjectPathNotAllowed
                    else ProjectPathNotFound)).
Proof.
  apply (proj2 (path_checks_agree [lit "/home/u"] (lit "/srv/p") fs_foo doc_ab)).
  reflexivity.
Defined.

(** X19: [update_project_memory] does not consult the allow-list.  For a
    project directory outside the allowed directories, reading and setting
    the memory are refused, the file system staying as it was, while a patch
    that parses and applies to the text of the memory file goes on to the
    write: the file is opened for writing and, unless that write fails, holds
    the patched text. *)
Theorem update_ignores_allow_list
        (allowed_directories : list str) (pp : str) (fs : filesystem)
        (stored patch_content final project_info : str)
        (blocks : list block) (applied : nat) :
  in_allowed_directories allowed_directories pp = false ->
  project_is_dir fs = true ->
  memory_file fs = Some stored ->
  read_fails fs Utf8 stored = false ->
  parse_search_replace_blocks patch_content = Ok blocks ->
  apply_blocks (universal_newlines stored) blocks = Ok (final, applied) ->
  get_project_memory allowed_directories pp fs = Refused ProjectPathNotAllowed /\
  set_project_memory allowed_directories pp fs project_info =
  (fs, Refused ProjectPathNotAllowed) /\
  update_project_memory fs patch_content =
  (fst (write_text Utf8 fs final),
   match snd (write_text Utf8 fs final) with
   | None => Applied applied
   | Some w => FailedToWrite w
   end) /\
  (open_fails fs = false ->
   writes (fst (update_project_memory fs patch_content)) = final :: writes fs).
Proof.
  intros Ha Hd Hm Hr Hp Hb.
  assert (U : update_project_memory fs patch_content =
              (fst (write_text Utf8 fs final),
               match snd (write_text Utf8 fs final) with
               | None => Applied applied
               | Some w => FailedToWrite w
               end)).
  { unfold update_project_memory. rewrite Hd, Hm, Hr, Hp. simpl.
    pose proof (parse_nonempty _ _ Hp) as Hne.
    destruct blocks as [|b blocks]; [contradiction|]. rewrite Hb.
    now destruct (write_text Utf8 fs final) as [fs' [w|]]. }
  unfold get_project_memory, set_project_memory. rewrite Hd, Ha. simpl.
  split; [reflexivity|]. split; [reflexivity|]. split; [exact U|].
  intro Ho. rewrite U. simpl fst.
  destruct (write_text Utf8 fs final) as [fs' w] eqn:W.
  now apply (write_text_writes Utf8 fs fs' final w).
Qed.

Lemma update_ignores_allow_list_witness :
  get_project_memory [lit "/home/u"] (lit "/srv/p") fs_foo =
  Refused ProjectPathNotAllowed /\
  set_project_memory [lit "/home/u"] (lit "/srv/p") fs_foo doc_ab =
  (fs_foo, Refused ProjectPathNotAllowed) /\
  update_project_memory fs_foo patch_foo =
  (fst (write_text Utf8 fs_foo (lit "foobar")),
   match snd (write_text Utf8 fs_foo (lit "foobar")) with
   | None => Applied 1
   | Some w => FailedToWrite w
   end) /\
  (open_fails fs_foo = false ->
   writes (fst (update_project_memory fs_foo patch_foo)) = lit "foobar" :: writes fs_foo).
Proof.
  apply (update_ignores_allow_list
           [lit "/home/u"] (lit "/srv/p") fs_foo doc_foo patch_foo (lit "foobar") doc_ab
           [(lit "foo", lit "foobar")] 1); reflexivity.
Defined.

(** ** Patches made of blocks and of other text *)

Section Segments.

Lemma join_app (sep : str) (ps qs : list str) :
  ps <> [] -> qs <> [] -> join sep (ps ++ qs) = join sep ps ++ sep ++ join sep qs.
Proof.
  intros Hp Hq. induction ps as [|p [|p' ps] IH]; [contradiction | |].
  - simpl app. destruct qs; [contradiction | reflexivity].
  - change (join sep ((p :: p' :: ps) ++ qs))
      with (p ++ sep ++ join sep ((p' :: ps) ++ qs)).
    rewrite IH by discriminate.
    change (join sep (p :: p' :: ps)) with (p ++ sep ++ join sep (p' :: ps)).
    now rewrite <- !app_assoc.
Qed.

Lemma segment_pieces_nonempty (segments : list segment) :
  segments <> [] -> flat_map segment_pieces segments <> [].
Proof.
  destruct segments as [|[b|g] rest]; [contradiction | |]; intros _; discriminate.
Qed.

(** The text of the segments, one segment after the other. *)
Lemma segments_text_cons (seg : segment) (rest : list segment) :
  rest <> [] ->
  segments_text (seg :: rest) =
  join [LF] (segment_pieces seg) ++ LF :: segments_text rest.
Proof.
  intro Hne. unfold segments_text. cbn [flat_map].
  rewrite join_app; [reflexivity | destruct seg; discriminate |].
  now apply segment_pieces_nonempty.
Qed.

Lemma segments_text_last (seg : segment) :
  segments_text [seg] = join [LF] (segment_pieces seg).
Proof. unfold segments_text. cbn [flat_map]. now rewrite app_nil_r. Qed.

Lemma join_block_pieces (b : block) : join [LF] (block_pieces b) = render_block b.
Proof. destruct b as [s r]. reflexivity. Qed.

Lemma segment_blocks_free (segments : list segment) :
  Forall clean_segment segments -> Forall marker_free (segment_blocks segments).
Proof.
  induction 1 as [|[b|g] rest H F IH]; simpl; [constructor | | exact IH].
  now constructor.
Qed.

(** Each of the three literals is counted once per block. *)
Lemma count_segments (segments : list segment) (m : str) :
  In m [search_marker; separator; replace_marker] ->
  Forall clean_segment segments ->
  count (segments_text segments) m = length (segment_blocks segments).
Proof.
  intros Hm F. unfold segments_text.
  assert (N : m <> [] /\ ~ In LF m).
  { simpl in Hm. destruct Hm as [<- | [<- | [<- | []]]];
      (split; [discriminate|]); intro H; simpl in H;
        repeat (destruct H as [H | H]; [discriminate|]); exact H. }
  destruct N as [N1 N2]. rewrite (count_join m N1 N2).
  induction F as [|[[s r]|g] rest H F IH]; [reflexivity | |].
  - cbn [flat_map segment_blocks length]. rewrite map_app, list_sum_app, IH.
    destruct H as [Fs Fr]. simpl fst in *. simpl snd in *.
    apply has_marker_false in Fs as (S1 & S2 & S3).
    apply has_marker_false in Fr as (R1 & R2 & R3).
    unfold segment_pieces, block_pieces. simpl fst. simpl snd.
    simpl map. simpl list_sum.
    simpl in Hm. destruct Hm as [<- | [<- | [<- | []]]];
      rewrite (count_free _ N1 s), (count_free _ N1 r) by assumption; reflexivity.
  - cbn [flat_map segment_blocks segment_pieces]. rewrite map_app, list_sum_app, IH.
    simpl in H. apply has_marker_false in H as (G1 & G2 & G3).
    simpl map. simpl list_sum.
    simpl in Hm. destruct Hm as [<- | [<- | [<- | []]]];
      rewrite (count_free _ N1 g) by assumption; reflexivity.
Qed.

(** The marker lines of the text: one triple per block. *)
Lemma marker_lines_segments (segments : list segment) :
  Forall clean_segment segments ->
  marker_lines (segments_text segments) =
  flat_map (fun _ => [search_marker; separator; replace_marker])
           (segment_blocks segments).
Proof.
  intro F. unfold segments_text. rewrite marker_lines_join.
  induction F as [|[[s r]|g] rest H F IH]; [reflexivity | |].
  - cbn [flat_map segment_blocks]. rewrite flat_map_app, IH.
    destruct H as [Fs Fr]. simpl fst in *. simpl snd in *.
    unfold segment_pieces, block_pieces. simpl fst. simpl snd.
    simpl flat_map. rewrite (marker_lines_free s Fs), (marker_lines_free r Fr).
    reflexivity.
  - cbn [flat_map segment_blocks segment_pieces]. rewrite flat_map_app, IH.
    simpl in H. simpl flat_map. now rewrite (marker_lines_free g H).
Qed.

(** The structured extraction passes over a text without the opening
    marker. *)
Lemma findall_skip_text (g rest : str) :
  contains search_marker g = false ->
  Regex.findall pattern (g ++ LF :: rest) = Regex.findall pattern rest.
Proof.
  induction g as [|c g IH]; intro H.
  - simpl app. now rewrite findall_nomatch by reflexivity.
  - rewrite <- app_comm_cons, findall_nomatch.
    + apply IH. eapply contains_tail. exact H.
    + unfold pattern. rewrite match_here_lit.
      destruct (prefix (search_marker ++ [LF]) (c :: g ++ LF :: rest)) eqn:P;
        [|reflexivity].
      apply prefix_app_inv in P. rewrite app_comm_cons in P.
      rewrite prefix_before_char in P.
      * pose proof (contains_false _ _ H 0) as Q. cbn [skipn] in Q. congruence.
      * intro Hin. simpl in Hin.
        repeat (destruct Hin as [Hin | Hin]; [discriminate|]). exact Hin.
Qed.

Lemma findall_segments (segments : list segment) :
  Forall clean_segment segments ->
  Regex.findall pattern (segments_text segments) = segment_blocks segments.
Proof.
  induction 1 as [|seg rest H F IH]; [reflexivity|].
  destruct rest as [|seg' rest'].
  - rewrite segments_text_last. destruct seg as [[s r]|g]; cbn [segment_pieces segment_blocks].
    + rewrite join_block_pieces. destruct H as [Fs Fr]. simpl fst in *. simpl snd in *.
      rewrite <- (app_nil_r (render_block (s, r))).
      assert (L : 0 < length (render_block (s, r)))
        by (unfold render_block; rewrite length_app; simpl; lia).
      rewrite (findall_match pattern _ s r [] (match_block s r [] Fs Fr))
        by (rewrite length_app; simpl; lia).
      rewrite length_app, Nat.add_sub, skipn_prefix_app. reflexivity.
    + simpl. simpl in H. apply has_marker_false in H as (G1 & _ & _).
      now apply findall_no_opening.
  - rewrite segments_text_cons by discriminate.
    destruct seg as [[s r]|g]; cbn [segment_pieces segment_blocks].
    + rewrite join_block_pieces. destruct H as [Fs Fr]. simpl fst in *. simpl snd in *.
      assert (L : 0 < length (render_block (s, r)))
        by (unfold render_block; rewrite length_app; simpl; lia).
      rewrite (findall_match pattern _ s r _ (match_block s r _ Fs Fr))
        by (rewrite length_app; lia).
      rewrite length_app, Nat.add_sub, skipn_prefix_app. f_equal.
      rewrite findall_nomatch by reflexivity. exact IH.
    + simpl join. simpl in H. apply has_marker_false in H as (G1 & _ & _).
      rewrite findall_skip_text by exact G1. exact IH.
Qed.

End Segments.

(** C1, amended: a patch text made of N >= 1 blocks and of any other text
    that contains no marker literal, before, between and after the blocks,
    each block written as the opening marker, the search text, the
    separator, the replace text and the closing marker, every marker exactly
    as its literal on a line of its own, the search and the replace text
    containing no marker literal, and a line feed between any two of these
    pieces and texts, passes validation, and parsing it returns exactly the
    N blocks in the order in which they are written. *)
Theorem written_patch_parses (segments : list segment) :
  segment_blocks segments <> [] ->
  Forall clean_segment segments ->
  validate_block_integrity (segments_text segments) = Ok tt /\
  parse_search_replace_blocks (segments_text segments) = Ok (segment_blocks segments) /\
  length (marker_lines (segments_text segments)) = 3 * length (segment_blocks segments).
Proof.
  intros Hne F.
  assert (V : validate_block_integrity (segments_text segments) = Ok tt).
  { unfold validate_block_integrity.
    rewrite !(count_segments segments) by (simpl; auto).
    rewrite Nat.eqb_refl. simpl negb. cbv iota.
    rewrite (marker_lines_segments segments F).
    rewrite check_sequence_triples. simpl bind. apply check_nested_split. }
  split; [exact V|]. split.
  - unfold parse_search_replace_blocks. rewrite V. simpl bind.
    rewrite (findall_segments segments F).
    destruct (segment_blocks segments) as [|b rest] eqn:E; [contradiction|].
    rewrite check_matches_free; [reflexivity|].
    rewrite <- E. now apply segment_blocks_free.
  - rewrite (marker_lines_segments segments F). clear.
    induction (segment_blocks segments) as [|b rest IH]; [reflexivity|].
    simpl flat_map. simpl length in *. lia.
Qed.

Lemma written_patch_parses_witness :
  parse_search_replace_blocks
    (segments_text [TextSegment (lit "Two edits:");
                    BlockSegment (lit "foo", lit "foobar");
                    TextSegment [];
                    BlockSegment ([], lit "x");
                    TextSegment []]) =
  Ok [(lit "foo", lit "foobar"); ([], lit "x")].
Proof.
  apply (written_patch_parses
           [TextSegment (lit "Two edits:");
            BlockSegment (lit "foo", lit "foobar");
            TextSegment [];
            BlockSegment ([], lit "x");
            TextSegment []]).
  - discriminate.
  - repeat constructor.
Defined.

(** ** The count as a number of occurrences that do not overlap *)

Section NonOverlapping.

Variable sub : str.
Hypothesis sub_nonempty : sub <> [].

Lemma spaced_map_add (k : nat) (positions : list nat) :
  spaced (length sub) positions ->
  spaced (length sub) (map (fun q => q + k) positions).
Proof.
  induction positions as [|p rest IH]; intro H; [exact I|].
  destruct H as [H1 H2]. split; [|now apply IH].
  apply Forall_map. eapply Forall_impl; [|exact H1]. simpl. intros q Hq. lia.
Qed.

(** The scan of [count] finds occurrences that do not overlap, as many as
    it counts. *)
Lemma count_is_reached (s : str) :
  exists positions,
    non_overlapping_occurrences sub s positions /\ length positions = count s sub.
Proof.
  unfold non_overlapping_occurrences, occurs_at.
  remember (length s) as n eqn:En. revert s En.
  induction n as [n IH] using lt_wf_ind. intros s ->.
  destruct s as [|c t].
  - exists []. rewrite (count_nil sub sub_nonempty). repeat split; constructor.
  - destruct (prefix sub (c :: t)) eqn:E.
    + rewrite (count_match sub sub_nonempty _ E).
      destruct (IH (length (skipn (length sub) (c :: t)))) with
          (s := skipn (length sub) (c :: t)) as (ps & [Hs Ho] & Hl);
        [|reflexivity|].
      { rewrite length_skipn. destruct sub; [contradiction | simpl; lia]. }
      exists (0 :: map (fun q => q + length sub) ps). repeat split.
      * apply Forall_map. apply Forall_forall. intros q _. lia.
      * now apply spaced_map_add.
      * constructor; [exact E|]. apply Forall_map.
        eapply Forall_impl; [|exact Ho]. intros q Hq. simpl.
        now rewrite <- skipn_skipn.
      * simpl. now rewrite length_map, Hl.
    + rewrite (count_nomatch sub _ _ E).
      destruct (IH (length t) ltac:(simpl; lia) t eq_refl) as (ps & [Hs Ho] & Hl).
      exists (map (fun q => q + 1) ps). repeat split.
      * now apply spaced_map_add.
      * apply Forall_map. eapply Forall_impl; [|exact Ho]. intros q Hq. simpl.
        now replace (q + 1) with (S q) by lia.
      * now rewrite length_map.
Qed.

(** No more occurrences than [count] counts can be had without overlap:
    taking the leftmost occurrence first loses nothing. *)
Lemma count_is_largest (s : str) :
  forall (off : nat) (positions : list nat),
    spaced (length sub) positions ->
    Forall (fun p => off <= p /\ prefix sub (skipn (p - off) s) = true) positions ->
    length positions <= count s sub.
Proof.
  remember (length s) as n eqn:En. revert s En.
  induction n as [n IH] using lt_wf_ind. intros s -> off positions Hs Ho.
  destruct s as [|c t].
  - destruct positions as [|p rest]; [simpl; lia|].
    inversion Ho as [|? ? [_ Hp] _]; subst.
    rewrite skipn_nil in Hp. apply prefix_nil_r in Hp. contradiction.
  - destruct (prefix sub (c :: t)) eqn:E.
    + rewrite (count_match sub sub_nonempty _ E).
      destruct positions as [|p rest]; [simpl; lia|].
      destruct Hs as [Hp Hs]. inversion Ho as [|? ? [Hoff _] Ho']; subst.
      assert (L : length rest <= count (skipn (length sub) (c :: t)) sub).
      { apply (IH (length (skipn (length sub) (c :: t)))) with
            (off := off + length sub); [|reflexivity|exact Hs|].
        - rewrite length_skipn. destruct sub; [contradiction | simpl; lia].
        - rewrite Forall_forall in *. intros q Hq.
          specialize (Hp q Hq). destruct (Ho' q Hq) as [Hq1 Hq2].
          split; [lia|]. rewrite skipn_skipn.
          now replace (q - (off + length sub) + length sub) with (q - off) by lia. }
      simpl. lia.
    + rewrite (count_nomatch sub _ _ E).
      apply (IH (length t)) with (off := off + 1); [simpl; lia | reflexivity | exact Hs|].
      rewrite Forall_forall in *. intros q Hq. destruct (Ho q Hq) as [Hq1 Hq2].
      destruct (q - off) as [|k] eqn:Ek.
      * simpl in Hq2. congruence.
      * split; [lia|]. replace (q - (off + 1)) with k by lia. exact Hq2.
Qed.

(** When any two occurrences overlap, one occurrence is counted. *)
Lemma count_of_overlapping (s : str) :
  (exists i, occurs_at sub s i) ->
  (forall i j, occurs_at sub s i -> occurs_at sub s j -> i <= j -> j < i + length sub) ->
  count s sub = 1.
Proof.
  intros [i Hi] Hov.
  destruct (count_is_reached s) as (ps & [Hs Ho] & Hl).
  destruct ps as [|p [|q rest]].
  - exfalso. simpl in Hl. symmetry in Hl.
    rewrite (count_zero_iff sub sub_nonempty) in Hl.
    unfold occurs_at in Hi. rewrite Hl in Hi. discriminate.
  - now rewrite <- Hl.
  - exfalso. destruct Hs as [Hp _].
    inversion Hp as [|? ? Hpq _]; subst.
    inversion Ho as [|? ? Op Ho']; subst. inversion Ho' as [|? ? Oq _]; subst.
    specialize (Hov p q Op Oq ltac:(lia)). lia.
Qed.

End NonOverlapping.

(** C10: the occurrences that are counted do not overlap.  For a non-empty
    search text the count is the largest number of occurrences of it in the
    document no two of which overlap: there are that many, and no more; so
    the counted occurrences fit side by side in the document.  When the
    search text occurs in the document and any two of its occurrences
    overlap, the count is 1; and whenever the count is 1 the block applies,
    and it is the leftmost occurrence that is replaced.  So for the search
    text "aa" in "aaa". *)
Theorem count_is_non_overlapping :
  (forall document search_text : str,
      search_text <> [] ->
      (exists positions,
          non_overlapping_occurrences search_text document positions /\
          length positions = count document search_text) /\
      (forall positions,
          non_overlapping_occurrences search_text document positions ->
          length positions <= count document search_text) /\
      count document search_text * length search_text <= length document) /\
  (forall document search_text replace_text : str,
      search_text <> [] ->
      (exists i, occurs_at search_text document i) ->
      (forall i j,
          occurs_at search_text document i -> occurs_at search_text document j ->
          i <= j -> j < i + length search_text) ->
      count document search_text = 1 /\
      exists pre post,
        document = pre ++ search_text ++ post /\
        (forall i, i < length pre -> ~ occurs_at search_text document i) /\
        apply_blocks document [(search_text, replace_text)] =
        Ok (pre ++ replace_text ++ post, 1)) /\
  (forall document search_text replace_text : str,
      search_text <> [] ->
      count document search_text = 1 ->
      exists pre post,
        document = pre ++ search_text ++ post /\
        (forall i, i < length pre -> ~ occurs_at search_text document i) /\
        apply_blocks document [(search_text, replace_text)] =
        Ok (pre ++ replace_text ++ post, 1)) /\
  count doc_aaa (lit "aa") = 1 /\
  (forall replace_text : str,
      apply_blocks doc_aaa [(lit "aa", replace_text)] =
      Ok (replace_text ++ lit "a", 1)).
Proof.
  assert (Leftmost : forall document search_text replace_text : str,
             search_text <> [] ->
             count document search_text = 1 ->
             exists pre post,
               document = pre ++ search_text ++ post /\
               (forall i, i < length pre -> ~ occurs_at search_text document i) /\
               apply_blocks document [(search_text, replace_text)] =
               Ok (pre ++ replace_text ++ post, 1)).
  { intros document search_text replace_text Hne C.
    destruct (count_one search_text Hne document C) as (pre & post & E & Hpre & _ & Hrep).
    exists pre, post. split; [exact E|]. split.
    - intros i Hi Ho. unfold occurs_at in Ho. rewrite (Hpre i Hi) in Ho. discriminate.
    - rewrite apply_single_one by exact C. now rewrite Hrep. }
  split; [|split; [|split; [exact Leftmost|split]]].
  - intros document search_text Hne. split; [|split].
    + now apply count_is_reached.
    + intros positions [Hs Ho].
      apply (count_is_largest search_text Hne document 0 positions Hs).
      eapply Forall_impl; [|exact Ho]. intros p Hp. simpl.
      split; [lia|]. now rewrite Nat.sub_0_r.
    + now apply count_fits.
  - intros document search_text replace_text Hne Hex Hov.
    pose proof (count_of_overlapping search_text Hne document Hex Hov) as C.
    split; [exact C | now apply Leftmost].
  - reflexivity.
  - intro replace_text. rewrite apply_single_one by reflexivity. reflexivity.
Qed.

Lemma count_is_non_overlapping_witness :
  count doc_aaa (lit "aa") = 1 /\
  exists pre post,
    doc_aaa = pre ++ lit "aa" ++ post /\
    (forall i, i < length pre -> ~ occurs_at (lit "aa") doc_aaa i) /\
    apply_blocks doc_aaa [(lit "aa", lit "b")] = Ok (pre ++ lit "b" ++ post, 1).
Proof.
  apply (proj1 (proj2 count_is_non_overlapping) doc_aaa (lit "aa") (lit "b")).
  - discriminate.
  - exists 0. reflexivity.
  - intros i j Hi Hj Hij. unfold occurs_at in Hj.
    destruct j as [|[|j]]; simpl; try lia.
    destruct j as [|[|j]]; simpl in Hj; discriminate.
Defined.
